(** * Shallow embedding of the Two Nil (SCOT-94) data extractor

    Sources embedded here:
    - [src/src/app/scot94_extract.py]: [read_slot16], [find_slot16_tables],
      [extract_pascal_strings], [tokenize_mixed], [NAME_TOKEN_RE] and the
      two block loops of [main] ([squadA] / [rowsA], and [blocksB]);
    - [src/src/app/extract_all_names.py]: [split_concatenated_names],
      [is_plausible_token], [extract_slot16_tokens], [extract_blob_tokens],
      [infer_pairs] and the de-duplication loops of [main];
    - [src/src/app/scot94_extract_with_attrs_and_solver.py]:
      [extract_team_attributes_raw], [_mean_abs_error],
      [solve_u16_scaled_tables], [solve_u32_tables] and the Team List B
      loop of [main] (its scanners and [tokenize_mixed] are the ones of
      [scot94_extract.py]).

    Python values are modelled as follows: an [int] is a [Z]; a [bytes]
    object is the list of its byte values; a [str] is the list of its code
    points.  A Python exception is [None] in an [option] result. *)

From Stdlib Require Import Strings.String Strings.Ascii.
From Stdlib Require Import Numbers.DecimalString.
From Stdlib Require Import ZArith Bool List Lia QArith Sorting.Sorted Sorting.Permutation.
Import ListNotations.
Open Scope Z_scope.
Open Scope list_scope.

(** ** Python values *)

Definition pybytes := list Z.
Definition pystr := list Z.

(** A string literal as the list of its code points (ASCII literals only). *)
Definition cps (s : string) : pystr :=
  map (fun a => Z.of_nat (nat_of_ascii a)) (list_ascii_of_string s).

Definition py_len {A} (l : list A) : Z := Z.of_nat (length l).

(** [str] equality. *)
Fixpoint str_eqb (a b : pystr) : bool :=
  match a, b with
  | [], [] => true
  | x :: a', y :: b' => (x =? y) && str_eqb a' b'
  | _, _ => false
  end.

(** [s.endswith(suf)]. *)
Definition ends_with (s suf : pystr) : bool :=
  (length suf <=? length s)%nat && str_eqb (skipn (length s - length suf) s) suf.

Definition is_nil {A} (l : list A) : bool :=
  match l with [] => true | _ => false end.

(** Python's index normalisation for slice bounds. *)
Definition py_norm (n i : Z) : Z :=
  if i <? 0 then Z.max 0 (n + i) else Z.min i n.

(** [l[a:b]] with Python's slice semantics (negative bounds count from
    the end; out-of-range bounds are clamped). *)
Definition py_slice {A} (l : list A) (a b : Z) : list A :=
  let n := py_len l in
  let a' := py_norm n a in
  let b' := py_norm n b in
  firstn (Z.to_nat (b' - a')) (skipn (Z.to_nat a') l).

(** [l[i]]: negative indices count from the end; out of range raises
    [IndexError] ([None]). *)
Definition py_index {A} (l : list A) (i : Z) : option A :=
  let n := py_len l in
  if (0 <=? i) && (i <? n) then nth_error l (Z.to_nat i)
  else if (- n <=? i) && (i <? 0) then nth_error l (Z.to_nat (n + i))
  else None.

(** [data[i]] for an index the callers keep inside [0, len(data)). *)
Definition byte_at (data : pybytes) (i : Z) : Z := nth (Z.to_nat i) data 0.

(** [range(start, stop, step)]; a zero step raises [ValueError]. *)
Definition py_range (start stop step : Z) : option (list Z) :=
  if step =? 0 then None
  else
    let n := if 0 <? step then (stop - start + step - 1) / step
             else (start - stop - step - 1) / (- step) in
    Some (map (fun k => start + Z.of_nat k * step) (seq 0 (Z.to_nat n))).

(** [max] / [min] of a sequence; empty raises [ValueError]. *)
Definition py_max (l : list Z) : option Z :=
  match l with [] => None | x :: r => Some (fold_left Z.max r x) end.
Definition py_min (l : list Z) : option Z :=
  match l with [] => None | x :: r => Some (fold_left Z.min r x) end.

(** [str.isspace] on one code point (the Unicode White_Space characters
    Python recognises). *)
Definition py_isspace (c : Z) : bool :=
  ((9 <=? c) && (c <=? 13)) || ((28 <=? c) && (c <=? 32)) || (c =? 133)
  || (c =? 160) || (c =? 5760) || ((8192 <=? c) && (c <=? 8202))
  || (c =? 8232) || (c =? 8233) || (c =? 8239) || (c =? 8287)
  || (c =? 12288).

Fixpoint lstrip (s : pystr) : pystr :=
  match s with
  | c :: s' => if py_isspace c then lstrip s' else s
  | [] => []
  end.

(** [str.strip()]: whitespace removed at both ends. *)
Definition py_strip (s : pystr) : pystr := rev (lstrip (rev (lstrip s))).

(** Python's character classes restricted to ASCII code points; on ASCII
    they coincide with [str.isalpha], [str.isupper] and [str.islower]. *)
Definition ascii_isupper (c : Z) : bool := (65 <=? c) && (c <=? 90).
Definition ascii_islower (c : Z) : bool := (97 <=? c) && (c <=? 122).
Definition ascii_isalpha (c : Z) : bool := ascii_isupper c || ascii_islower c.

Definition Mc : pystr := [77; 99].
Definition Mac : pystr := [77; 97; 99].

Section Classifiers.

(** [ch.isalpha()], [ch.isupper()], [ch.islower()] on one code point.
    Python's Unicode tables are not spelled out: every result below holds
    for any choice of these three predicates. *)
Variables isalpha isupper islower : Z -> bool.

(** ** Token Segmenter, [tokenize_mixed] (scot94_extract.py) *)

(** [flush()]: append [cur] to [tokens] when it is non-empty. *)
Definition flush (cur : pystr) (tokens : list pystr) : list pystr :=
  if is_nil cur then tokens else tokens ++ [cur].

(** The [for ch in s] loop, with [cur] and [tokens] threaded as state;
    returns [tokens] after the final [flush()]. *)
Fixpoint tm_boundary (s : pystr) (cur : pystr) (tokens : list pystr)
  : list pystr :=
  match s with
  | [] => flush cur tokens
  | ch :: s' =>
      if ch =? 32 then tm_boundary s' [] (flush cur tokens)
      else if negb (isalpha ch || (ch =? 39) || (ch =? 45))
      then tm_boundary s' [] (flush cur tokens)
      else if negb (is_nil cur) && isupper ch && islower (last cur 0)
      then tm_boundary s' [ch] (flush cur tokens)
      else tm_boundary s' (cur ++ [ch]) tokens
  end.

(** The [while i < len(tokens)] merge loops: a token equal to [pre] that
    has a successor is glued to it. *)
Fixpoint merge_prefix (pre : pystr) (toks : list pystr) : list pystr :=
  match toks with
  | [] => []
  | t :: rest =>
      if str_eqb t pre then
        match rest with
        | u :: rest' => (pre ++ u) :: merge_prefix pre rest'
        | [] => [t]
        end
      else t :: merge_prefix pre rest
  end.

Definition tokenize_mixed (s : pystr) : list pystr :=
  merge_prefix Mac (merge_prefix Mc (tm_boundary s [] [])).

(** ** Token Segmenter, [split_concatenated_names] (extract_all_names.py) *)

(** The [for i in range(1, len(blob))] loop; [prev] is [blob[i - 1]]. *)
Fixpoint scn_loop (prev : Z) (rest : pystr) (cur : pystr)
  (parts : list pystr) : list pystr :=
  match rest with
  | [] => parts ++ [cur]
  | ch :: rest' =>
      if isupper ch && islower prev then
        if ends_with cur Mac || ends_with cur Mc
        then scn_loop ch rest' (cur ++ [ch]) parts
        else scn_loop ch rest' [ch] (parts ++ [cur])
      else scn_loop ch rest' (cur ++ [ch]) parts
  end.

(** The boundary pass, [parts] after [parts.append(cur)]. *)
Definition split_boundary (blob : pystr) : list pystr :=
  match blob with
  | [] => []
  | c :: r => scn_loop c r [c] []
  end.

(** [parts[i + 1][:1].isupper()]. *)
Definition first_isupper (u : pystr) : bool :=
  match u with c :: _ => isupper c | [] => false end.

(** The merge loop: [Mc] followed by a token whose first character is
    uppercase is glued to it. *)
Fixpoint merge_mc_upper (parts : list pystr) : list pystr :=
  match parts with
  | [] => []
  | t :: rest =>
      match rest with
      | u :: rest' =>
          if str_eqb t Mc && first_isupper u
          then (Mc ++ u) :: merge_mc_upper rest'
          else t :: merge_mc_upper rest
      | [] => [t]
      end
  end.

Definition split_concatenated_names (blob : pystr) : list pystr :=
  match blob with
  | [] => []
  | _ => merge_mc_upper (split_boundary blob)
  end.

(** Characters a token of [tokenize_mixed] may hold. *)
Definition token_char (c : Z) : bool := isalpha c || (c =? 39) || (c =? 45).

Definition good_token (t : pystr) : Prop :=
  t <> [] /\ Forall (fun c => token_char c = true) t.

(** Parts of the boundary pass of [split_concatenated_names]: an inner
    lowercase-to-uppercase transition only follows a prefix ending in
    "Mac" or "Mc". *)
Definition mc_kept (a : pystr) (ch : Z) : Prop :=
  islower (last a 0) = true -> isupper ch = true ->
  (ends_with a Mac || ends_with a Mc) = true.

End Classifiers.

(** [adjacent_ok R t]: every character [ch] of [t] with a non-empty prefix
    [a] satisfies [R a ch]. *)
Definition adjacent_ok (R : pystr -> Z -> Prop) (t : pystr) : Prop :=
  forall a ch b, t = a ++ ch :: b -> a <> [] -> R a ch.


(** ** Byte decoding *)

(** Code points of the bytes 0x80 .. 0xFF in code page 437. *)
Definition cp437_high : list Z :=
  [199; 252; 233; 226; 228; 224; 229; 231; 234; 235; 232; 239; 238; 236; 196; 197;
   201; 230; 198; 244; 246; 242; 251; 249; 255; 214; 220; 162; 163; 165; 8359; 402;
   225; 237; 243; 250; 241; 209; 170; 186; 191; 8976; 172; 189; 188; 161; 171; 187;
   9617; 9618; 9619; 9474; 9508; 9569; 9570; 9558; 9557; 9571; 9553; 9559; 9565; 9564; 9563; 9488;
   9492; 9524; 9516; 9500; 9472; 9532; 9566; 9567; 9562; 9556; 9577; 9574; 9568; 9552; 9580; 9575;
   9576; 9572; 9573; 9561; 9560; 9554; 9555; 9579; 9578; 9496; 9484; 9608; 9604; 9612; 9616; 9600;
   945; 223; 915; 960; 931; 963; 181; 964; 934; 920; 937; 948; 8734; 966; 949; 8745;
   8801; 177; 8805; 8804; 8992; 8993; 247; 8776; 176; 8729; 183; 8730; 8319; 178; 9632; 160].

Definition cp437 (b : Z) : Z :=
  if b <? 128 then b else nth (Z.to_nat (b - 128)) cp437_high 0.

(** [raw.decode("cp437", errors="ignore")]: code page 437 maps every byte,
    so nothing is ignored and the result has one code point per byte. *)
Definition decode_cp437 (raw : pybytes) : pystr := map cp437 raw.

(** Membership in [ALLOWED_CHARS]; the same test as one byte of
    [is_printable_name_bytes]. *)
Definition allowed_char (c : Z) : bool :=
  ((65 <=? c) && (c <=? 90)) || ((97 <=? c) && (c <=? 122))
  || (c =? 32) || (c =? 39) || (c =? 45) || (c =? 46).

Definition is_printable_name_bytes (b : pybytes) : bool := forallb allowed_char b.

(** [NAME_TOKEN_RE.fullmatch(t)] for [^[A-Za-z][A-Za-z'\-]{1,23}$]. *)
Definition name_token_re (t : pystr) : bool :=
  match t with
  | c :: r =>
      ascii_isalpha c && (1 <=? py_len r) && (py_len r <=? 23)
      && forallb (fun x => ascii_isalpha x || (x =? 39) || (x =? 45)) r
  | [] => false
  end.

Section Scanners.

Variable isalpha : Z -> bool.

(** ** Slot Table Scanner *)

(** [read_slot16(data, off)]; the callers pass [off >= 0], where [blk]
    holds 16 bytes. *)
Definition read_slot16 (data : pybytes) (off : Z) : option pystr :=
  if py_len data <? off + 16 then None
  else
    let blk := py_slice data off (off + 16) in
    let L := nth 0 blk 0 in
    if negb ((1 <=? L) && (L <=? 15)) then None
    else
      let raw := py_slice blk 1 (1 + L) in
      let s := py_strip (decode_cp437 raw) in
      if is_nil s || negb (existsb isalpha s) then None
      else if existsb (fun ch => negb (allowed_char ch)) s then None
      else Some s.

(** The inner [while True] loop: the run of slots read from [off] on at
    stride 16.  Each read needs [off + 16 <= len(data)], so [length data]
    iterations are never exhausted. *)
Fixpoint slot_run (data : pybytes) (off : Z) (fuel : nat) : list (Z * pystr) :=
  match fuel with
  | O => []
  | S f =>
      match read_slot16 data off with
      | None => []
      | Some s => (off, s) :: slot_run data (off + 16) f
      end
  end.

(** The outer [while i < len(data) - 16] loop; [i] grows by at least one
    per iteration. *)
Fixpoint find_tables_loop (data : pybytes) (i : Z) (fuel : nat)
  : list (list (Z * pystr)) :=
  match fuel with
  | O => []
  | S f =>
      if i <? py_len data - 16 then
        let slots := slot_run data i (length data) in
        if 8 <=? py_len slots
        then slots :: find_tables_loop data (i + 16 * py_len slots) f
        else find_tables_loop data (i + 1) f
      else []
  end.

Definition find_slot16_tables (data : pybytes) : list (list (Z * pystr)) :=
  find_tables_loop data 0 (length data).

(** ** Unaligned Pascal Scanner *)

(** One iteration of the [while i < len(data) - 2] loop of
    [extract_pascal_strings]: the token emitted, if any, and the next
    cursor. *)
Definition pascal_step (data : pybytes) (min_len max_len i : Z)
  : option (Z * pystr) * Z :=
  let L := byte_at data i in
  if (min_len <=? L) && (L <=? max_len) && (i + 1 + L <=? py_len data) then
    let sbytes := py_slice data (i + 1) (i + 1 + L) in
    if is_printable_name_bytes sbytes then
      let s := py_strip (decode_cp437 sbytes) in
      (if existsb isalpha s then Some (i, s) else None, i + 1 + L)
    else (None, i + 1)
  else (None, i + 1).

(** The loop; the cursor grows by at least one per iteration. *)
Fixpoint pascal_loop (data : pybytes) (min_len max_len i : Z) (fuel : nat)
  : list (Z * pystr) :=
  match fuel with
  | O => []
  | S f =>
      if i <? py_len data - 2 then
        let '(o, j) := pascal_step data min_len max_len i in
        match o with
        | Some t => t :: pascal_loop data min_len max_len j f
        | None => pascal_loop data min_len max_len j f
        end
      else []
  end.

(** The scan resumed at cursor [i]. *)
Definition pascal_from (data : pybytes) (min_len max_len i : Z) :=
  pascal_loop data min_len max_len i (length data).

Definition extract_pascal_strings (data : pybytes) (min_len max_len : Z) :=
  pascal_from data min_len max_len 0.

(** Python [bytes] hold values in [0, 255]. *)
Definition bytes_ok (data : pybytes) : Prop := Forall (fun b => 0 <= b <= 255) data.

End Scanners.

(** ** Block Mapper (the two block loops of [main] in scot94_extract.py)

    The source fixes [start_team_index = 7], [chunkA = 21], [offsetA = -2]
    and [offsetB = 10], [chunkB = 16]; they are parameters here. *)

(** [squadA(team_index)]. *)
Definition squadA (tokens : list pystr)
  (start_team_index chunkA offsetA team_index : Z) : option (list pystr) :=
  let t := team_index - start_team_index in
  let start := offsetA + t * chunkA in
  let end_ := start + chunkA in
  if (start <? 0) || (py_len tokens <? end_) then None
  else Some (py_slice tokens start end_).

(** The [for t in teamA] loop building [rowsA]; [teamA] enumerates the
    team names from index [idx].  A row is [(team_index, team_name, sq)],
    [sq] holding the fields [p1 .. p{chunkA}]. *)
Fixpoint rowsA_loop (tokens : list pystr) (start_team_index chunkA offsetA : Z)
  (idx : Z) (names : list pystr) : list (Z * pystr * list pystr) :=
  match names with
  | [] => []
  | name :: rest =>
      let r := rowsA_loop tokens start_team_index chunkA offsetA (idx + 1) rest in
      if idx <? start_team_index then r
      else
        match squadA tokens start_team_index chunkA offsetA idx with
        | Some sq => if is_nil sq then r else (idx, name, sq) :: r
        | None => r
        end
  end.

Definition rowsA (tokens : list pystr) (names : list pystr)
  (start_team_index chunkA offsetA : Z) :=
  rowsA_loop tokens start_team_index chunkA offsetA 0 names.

(** [sum(1 for t in blk if NAME_TOKEN_RE.fullmatch(t))]. *)
Definition count_name_like (blk : list pystr) : Z :=
  py_len (filter name_token_re blk).

(** The [for bstart in range(offsetB, len(tokens), chunkB)] loop. *)
Fixpoint blocksB_loop (tokens : list pystr) (chunkB : Z) (starts : list Z)
  (block_id : Z) : list (Z * Z * list pystr) :=
  match starts with
  | [] => []
  | bstart :: rest =>
      let bend := bstart + chunkB in
      if py_len tokens <? bend then []
      else
        let blk := py_slice tokens bstart bend in
        if 12 <=? count_name_like blk
        then (block_id, bstart, blk) :: blocksB_loop tokens chunkB rest (block_id + 1)
        else blocksB_loop tokens chunkB rest block_id
  end.

Definition blocksB (tokens : list pystr) (offsetB chunkB : Z)
  : option (list (Z * Z * list pystr)) :=
  match py_range offsetB (py_len tokens) chunkB with
  | None => None
  | Some starts => Some (blocksB_loop tokens chunkB starts 0)
  end.

(** ** Numeric Table Solver (scot94_extract_with_attrs_and_solver.py) *)

Definition obind {A B} (m : option A) (f : A -> option B) : option B :=
  match m with Some a => f a | None => None end.
Notation "'let*' x ':=' m 'in' f" := (obind m (fun x => f))
  (at level 200, x ident, m at level 100, f at level 200, right associativity).

Definition u16_le (data : pybytes) (off : Z) : Z :=
  byte_at data off + 256 * byte_at data (off + 1).

(** [struct.unpack_from("<" + "H" * n, data, off)]; a negative offset
    counts from the end of the buffer (as in current CPython).  Failure is
    [None], which the solver catches. *)
Definition unpack_u16s (data : pybytes) (n off : Z) : option (list Z) :=
  let off' := if off <? 0 then off + py_len data else off in
  if (off' <? 0) || (py_len data <? off' + 2 * Z.max 0 n) then None
  else Some (map (fun k => u16_le data (off' + 2 * Z.of_nat k)) (seq 0 (Z.to_nat n))).

(** [err] of [_mean_abs_error]: the sum over [truth.items()]; [pred[idx]]
    may raise [IndexError]. *)
Fixpoint abs_err_sum (pred : list Z) (truth : list (Z * Z)) : option Z :=
  match truth with
  | [] => Some 0
  | (idx, val) :: t =>
      let* p := py_index pred idx in
      let* e := abs_err_sum pred t in
      Some (Z.abs (p - val) + e)
  end.

(** [_mean_abs_error(pred, truth)]: [err / max(1, len(truth))], kept as an
    exact rational.  The [dict] [truth] is the list of its items. *)
Definition mean_abs_error (pred : list Z) (truth : list (Z * Z)) : option Q :=
  let* e := abs_err_sum pred truth in
  Some (e # Z.to_pos (Z.max 1 (py_len truth))).

Record candidate := {
  kind : string;
  offset : Z;
  scale : Z;
  mae : Q;
  cmin : Z;
  cmax : Z
}.

Definition mk_candidate (off k : Z) (e : Q) (mn mx : Z) : candidate :=
  {| kind := ("u16_x" ++ NilEmpty.string_of_int (Z.to_int k))%string;
     offset := off; scale := k; mae := e; cmin := mn; cmax := mx |}.

(** The [for k in scales] loop at one offset. *)
Fixpoint scan_scales (vals : list Z) (truth : list (Z * Z)) (off : Z)
  (ks : list Z) : option (list candidate) :=
  match ks with
  | [] => Some []
  | k :: ks' =>
      let pred := map (fun v => v * k) vals in
      let* e := mean_abs_error pred truth in
      let* mn := py_min pred in
      let* mx := py_max pred in
      let* rest := scan_scales vals truth off ks' in
      Some (mk_candidate off k e mn mx :: rest)
  end.

(** The body of the [for off in range(...)] loop. *)
Definition cands_at (data : pybytes) (n : Z) (truth : list (Z * Z))
  (scales : list Z) (off : Z) : option (list candidate) :=
  match unpack_u16s data n off with
  | None => Some []
  | Some vals =>
      let* mx := py_max vals in
      if mx =? 0 then Some [] else scan_scales vals truth off scales
  end.

Fixpoint scan_offsets (data : pybytes) (n : Z) (truth : list (Z * Z))
  (scales : list Z) (offs : list Z) : option (list candidate) :=
  match offs with
  | [] => Some []
  | off :: r =>
      let* c := cands_at data n truth scales off in
      let* rest := scan_offsets data n truth scales r in
      Some (c ++ rest)
  end.

(** [out.sort(key=lambda r: r["mae"])]: [list.sort] is stable, and a
    stable sort has one result, computed here by insertion. *)
Fixpoint insert_by_mae (c : candidate) (l : list candidate) : list candidate :=
  match l with
  | [] => [c]
  | d :: l' => if Qle_bool (mae d) (mae c) then d :: insert_by_mae c l' else c :: l
  end.

Definition sort_by_mae (l : list candidate) : list candidate :=
  fold_left (fun acc c => insert_by_mae c acc) l [].

Definition solve_u16_scaled_tables (data : pybytes) (n : Z)
  (truth : list (Z * Z)) (scales : list Z) (search_start : Z)
  (search_end : option Z) (step : Z) : option (list candidate) :=
  let search_end := match search_end with Some e => e | None => py_len data end in
  let byte_len := 2 * n in
  let end_ := Z.min search_end (py_len data - byte_len) in
  let* offs := py_range search_start end_ step in
  let* out := scan_offsets data n truth scales offs in
  Some (sort_by_mae out).

(** ** Name candidates (extract_all_names.py) *)

(** The [blacklist] of [is_plausible_token]. *)
Definition blacklist : list pystr :=
  map cps ["Division"; "Premier"; "League"; "Scottish"; "Reserve"; "United"; "City";
           "Rovers"; "Athletic"; "County"; "Football"; "Club"]%string.

(** [str.isupper()] on a string of ASCII code points: some cased character
    and no lowercase one. *)
Definition ascii_str_isupper (s : pystr) : bool :=
  existsb ascii_isupper s && negb (existsb ascii_islower s).

(** [is_plausible_token(s)].  [TOKEN_RE.match] on the stripped [s] is a
    full match: [$] may only stop before a final newline, and [s] has
    none.  [s.isupper()] is only reached once [TOKEN_RE] has matched, when
    [s] is ASCII. *)
Definition is_plausible_token (s0 : pystr) : bool :=
  let s := py_strip s0 in
  if negb ((2 <=? py_len s) && (py_len s <=? 24)) then false
  else if negb (name_token_re s) then false
  else if existsb (str_eqb s) blacklist then false
  else if ascii_str_isupper s && (5 <? py_len s) then false
  else true.

(** The frozen dataclass [Token]. *)
Module Tok.
Record Token := mkToken { value : pystr; source : string; offset : Z }.
End Tok.

(** An [option] list of partial results, concatenated; [None] (an
    exception) stops the whole iteration. *)
Fixpoint concat_opt {A} (l : list (option (list A))) : option (list A) :=
  match l with
  | [] => Some []
  | o :: r =>
      match o with
      | None => None
      | Some a => match concat_opt r with Some b => Some (a ++ b) | None => None end
      end
  end.

(** One iteration of the [for off in range(...)] loop of
    [extract_slot16_tokens]: [blk[0]] raises [IndexError] on an empty
    block.  The [print] is not modelled. *)
Definition slot16_token_at (data : pybytes) (recsize off : Z) : option (list Tok.Token) :=
  let maxlen := recsize - 1 in
  let blk := py_slice data off (off + recsize) in
  match py_index blk 0 with
  | None => None
  | Some L =>
      if negb ((1 <=? L) && (L <=? maxlen)) then Some []
      else
        let raw := py_slice blk 1 (1 + L) in
        let s := py_strip (decode_cp437 raw) in
        if is_plausible_token s then Some [Tok.mkToken s "slot16"%string off] else Some []
  end.

(** [list(extract_slot16_tokens(data, start, recsize))]. *)
Definition extract_slot16_tokens (data : pybytes) (start recsize : Z)
  : option (list Tok.Token) :=
  match py_range start (py_len data - recsize + 1) recsize with
  | None => None
  | Some offs => concat_opt (map (slot16_token_at data recsize) offs)
  end.

(** The class [[A-Za-z'\-]] of [NAME_RUN_RE]. *)
Definition run_char (c : Z) : bool := ascii_isalpha c || (c =? 39) || (c =? 45).

(** Length of the run of [run_char] characters starting [s]. *)
Fixpoint run_len (s : pystr) : nat :=
  match s with
  | c :: r => if run_char c then S (run_len r) else O
  | [] => O
  end.

(** [NAME_RUN_RE.finditer(text)] for [[A-Za-z'\-]{minrun,}]: at each
    position the greedy match takes the whole run starting there, and the
    search resumes after it; a run shorter than [minrun] gives no match and
    the search moves on by one character.  Pairs are [(m.start(),
    m.group())].  Empty matches (possible only for [minrun = 0]) are
    skipped: their [split_concatenated_names] is empty. *)
Fixpoint name_runs (minrun : Z) (s : pystr) (pos : Z) (fuel : nat) : list (Z * pystr) :=
  match fuel with
  | O => []
  | S f =>
      match s with
      | [] => []
      | _ :: r =>
          let k := run_len s in
          if (0 <? k)%nat && (minrun <=? Z.of_nat k)
          then (pos, firstn k s) :: name_runs minrun (skipn k s) (pos + Z.of_nat k) f
          else name_runs minrun r (pos + 1) f
      end
  end.

(** [list(extract_blob_tokens(text))] with [NAME_RUN_RE] compiled for
    [minrun] (as [main] does).  A blob only holds ASCII letters,
    apostrophes and hyphens, where [str.isupper] and [str.islower] are the
    ASCII tests. *)
Definition extract_blob_tokens (minrun : Z) (text : pystr) : list Tok.Token :=
  flat_map (fun '(base, blob) =>
              flat_map (fun t0 => let t := py_strip t0 in
                                  if is_plausible_token t
                                  then [Tok.mkToken t "blob"%string base] else [])
                (split_concatenated_names ascii_isupper ascii_islower blob))
    (name_runs minrun text 0 (length text)).

(** [l1] is [l2] with some elements left out, the order kept. *)
Inductive subseq {A} : list A -> list A -> Prop :=
| subseq_nil : subseq [] []
| subseq_take x l1 l2 : subseq l1 l2 -> subseq (x :: l1) (x :: l2)
| subseq_skip x l1 l2 : subseq l1 l2 -> subseq l1 (x :: l2).

Section CaseMaps.

(** [str.upper()] and [str.lower()] on a whole string, and membership in
    the [firstnames] set.  They are left abstract: the results below hold
    for any of them. *)
Variables py_upper py_lower : pystr -> pystr.
Variable firstnames : pystr -> bool.

(** [infer_pairs(tokens, firstnames)]: the [while i < len(tokens)] loop,
    returning [(pairs, singles)]. *)
Fixpoint infer_pairs (tokens : list Tok.Token)
  : list (pystr * pystr * string * Z) * list Tok.Token :=
  match tokens with
  | [] => ([], [])
  | t :: rest =>
      let v := py_upper (firstn 1 (Tok.value t)) ++ skipn 1 (Tok.value t) in
      match rest with
      | nxt :: rest' =>
          if firstnames v && is_plausible_token (Tok.value nxt)
          then let '(ps, ss) := infer_pairs rest' in
               ((v, Tok.value nxt, Tok.source t, Tok.offset t) :: ps, ss)
          else let '(ps, ss) := infer_pairs rest in (ps, t :: ss)
      | [] => let '(ps, ss) := infer_pairs rest in (ps, t :: ss)
      end
  end.

(** [k in s]: [k] is a substring of [s]. *)
Fixpoint is_prefix (p s : pystr) : bool :=
  match p, s with
  | [], _ => true
  | x :: p', y :: s' => (x =? y) && is_prefix p' s'
  | _ :: _, [] => false
  end.

Fixpoint py_contains (k s : pystr) : bool :=
  is_prefix k s || match s with [] => false | _ :: s' => py_contains k s' end.

(** The [for off, s in cand] loop of [main] building Team List B. *)
Fixpoint teamsB_loop (seen : list pystr) (cand : list (Z * pystr)) : list (Z * pystr) :=
  match cand with
  | [] => []
  | (off, s) :: rest =>
      let key := py_lower s in
      if existsb (str_eqb key) seen then teamsB_loop seen rest
      else if py_len s <? 4 then teamsB_loop seen rest
      else if existsb (fun k => py_contains k (py_upper s)) [cps "LEAGUE"; cps "DIVISION"]
      then teamsB_loop seen rest
      else (off, s) :: teamsB_loop (key :: seen) rest
  end.

(** [cand] (the Pascal tokens at offsets [1200 .. 3000]) and the loop. *)
Definition teamsB (pas : list (Z * pystr)) : list (Z * pystr) :=
  teamsB_loop [] (filter (fun '(off, _) => (1200 <=? off) && (off <=? 3000)) pas).

End CaseMaps.

(** The de-duplication loops of [main] in [extract_all_names.py]: an
    element is kept when its key is not in [seen], and its key is then
    added.  [keq] is the key equality. *)
Fixpoint keep_first {A K} (keq : K -> K -> bool) (key : A -> K) (seen : list K) (l : list A)
  : list A :=
  match l with
  | [] => []
  | x :: r =>
      if existsb (keq (key x)) seen then keep_first keq key seen r
      else x :: keep_first keq key (key x :: seen) r
  end.

(** [key = (p[0], p[1])] of a pair. *)
Definition pair_key (p : pystr * pystr * string * Z) : pystr * pystr :=
  let '(first, last, _, _) := p in (first, last).

Definition pair_key_eqb (a b : pystr * pystr) : bool :=
  str_eqb (fst a) (fst b) && str_eqb (snd a) (snd b).

Definition pairs_unique (pairs : list (pystr * pystr * string * Z)) :=
  keep_first pair_key_eqb pair_key [] pairs.

Definition singles_unique (singles : list Tok.Token) :=
  keep_first str_eqb Tok.value [] singles.

(** ** Raw team attributes (scot94_extract_with_attrs_and_solver.py) *)

Definition TEAM_COUNT : Z := 64.
Definition ATTR_B1_OFFSET : Z := 3104.   (* 0x0C20 *)
Definition ATTR_U16_OFFSET : Z := 3168.  (* 0x0C60 *)
Definition ATTR_B2_OFFSET : Z := 3200.   (* 0x0C80 *)
Definition ATTR_B3_OFFSET : Z := 3264.   (* 0x0CC0 *)
Definition ATTR_B4_OFFSET : Z := 3296.   (* 0x0CE0 *)

(** One row of [extract_team_attributes_raw]; [None] is Python's [None]. *)
Module Attr.
Record row := mkRow {
  team_index : Z;
  team_name : pystr;
  b1_u8 : option Z;
  u16_le : option Z;
  b2_u8 : option Z;
  b3_u8 : option Z;
  b4_u8 : option Z;
  b4_ascii : pystr
}.
End Attr.

(** [data[i] if i < len(data) else None], for the non-negative [i] used. *)
Definition byte_if (data : pybytes) (i : Z) : option Z :=
  if i <? py_len data then Some (byte_at data i) else None.

Definition attr_row (data : pybytes) (idx : Z) (name : pystr) : Attr.row :=
  let b1 := byte_if data (ATTR_B1_OFFSET + idx) in
  let b2 := byte_if data (ATTR_B2_OFFSET + idx) in
  let b3 := byte_if data (ATTR_B3_OFFSET + idx) in
  let b4 := byte_if data (ATTR_B4_OFFSET + idx) in
  let u16_off := ATTR_U16_OFFSET + idx * 2 in
  let u16 := if u16_off + 2 <=? py_len data then Some (u16_le data u16_off) else None in
  Attr.mkRow idx name b1 u16 b2 b3 b4
    (match b4 with Some b => if (32 <=? b) && (b <=? 126) then [b] else [] | None => [] end).

(** The [for idx, name in enumerate(teams[:TEAM_COUNT])] loop. *)
Fixpoint attr_rows (data : pybytes) (idx : Z) (teams : list pystr) : list Attr.row :=
  match teams with
  | [] => []
  | name :: rest => attr_row data idx name :: attr_rows data (idx + 1) rest
  end.

Definition extract_team_attributes_raw (data : pybytes) (teams : list pystr) : list Attr.row :=
  attr_rows data 0 (firstn (Z.to_nat TEAM_COUNT) teams).

(** ** [solve_u32_tables] *)

Definition u32_le (data : pybytes) (off : Z) : Z :=
  byte_at data off + 256 * byte_at data (off + 1)
  + 65536 * byte_at data (off + 2) + 16777216 * byte_at data (off + 3).

(** [struct.unpack_from("<" + "I" * n, data, off)]. *)
Definition unpack_u32s (data : pybytes) (n off : Z) : option (list Z) :=
  let off' := if off <? 0 then off + py_len data else off in
  if (off' <? 0) || (py_len data <? off' + 4 * Z.max 0 n) then None
  else Some (map (fun k => u32_le data (off' + 4 * Z.of_nat k)) (seq 0 (Z.to_nat n))).

(** The body of the [for off in range(...)] loop of [solve_u32_tables]. *)
Definition cands32_at (data : pybytes) (n : Z) (truth : list (Z * Z)) (off : Z)
  : option (list candidate) :=
  match unpack_u32s data n off with
  | None => Some []
  | Some vals =>
      let* mx := py_max vals in
      if mx <? 1000 then Some []
      else
        let pred := vals in
        let* e := mean_abs_error pred truth in
        let* mn := py_min pred in
        let* mx' := py_max pred in
        Some [{| kind := "u32"%string; offset := off; scale := 1; mae := e;
                 cmin := mn; cmax := mx' |}]
  end.

Fixpoint scan_offsets32 (data : pybytes) (n : Z) (truth : list (Z * Z))
  (offs : list Z) : option (list candidate) :=
  match offs with
  | [] => Some []
  | off :: r =>
      let* c := cands32_at data n truth off in
      let* rest := scan_offsets32 data n truth r in
      Some (c ++ rest)
  end.

Definition solve_u32_tables (data : pybytes) (n : Z) (truth : list (Z * Z))
  (search_start : Z) (search_end : option Z) (step : Z) : option (list candidate) :=
  let search_end := match search_end with Some e => e | None => py_len data end in
  let byte_len := 4 * n in
  let end_ := Z.min search_end (py_len data - byte_len) in
  let* offs := py_range search_start end_ step in
  let* out := scan_offsets32 data n truth offs in
  Some (sort_by_mae out).

(** ** Predicates used by the proofs *)

(** Candidates ordered by error. *)
Definition mae_le (a b : candidate) : Prop := (mae a <= mae b)%Q.

(** What the Team List B loop keeps of a name, beside de-duplication. *)
Definition teamB_ok (py_upper : pystr -> pystr) (s : pystr) : Prop :=
  4 <= py_len s /\ py_contains (cps "LEAGUE") (py_upper s) = false
  /\ py_contains (cps "DIVISION") (py_upper s) = false.

(** A string [(q, s)] as the Pascal scan emits it at cursor [q]. *)
Definition pascal_entry_ok (isalpha : Z -> bool) (min_len max_len : Z) (data : pybytes)
  (q : Z) (s : pystr) : Prop :=
  let L := byte_at data q in
  0 <= q < py_len data - 2
  /\ min_len <= L <= max_len /\ q + 1 + L <= py_len data
  /\ is_printable_name_bytes (py_slice data (q + 1) (q + 1 + L)) = true
  /\ s = py_strip (decode_cp437 (py_slice data (q + 1) (q + 1 + L)))
  /\ existsb isalpha s = true
  /\ Forall (fun c => allowed_char c = true) s.

(** Two successive Pascal strings do not overlap. *)
Definition pascal_gap (data : pybytes) (a b : Z * pystr) : Prop :=
  fst a + 1 + byte_at data (fst a) <= fst b.

(** A slot table as the aligned scan emits it, starting at or after [lo]. *)
Definition slot_table_ok (isalpha : Z -> bool) (data : pybytes) (lo : Z)
  (T : list (Z * pystr)) : Prop :=
  exists o, lo <= o /\ o < py_len data - 16 /\ (8 <= length T)%nat
  /\ (forall k off s, nth_error T k = Some (off, s) ->
        off = o + 16 * Z.of_nat k /\ read_slot16 isalpha data off = Some s)
  /\ read_slot16 isalpha data (o + 16 * Z.of_nat (length T)) = None.

(** Two successive slot tables do not overlap. *)
Definition slot_tables_apart (T1 T2 : list (Z * pystr)) : Prop :=
  forall o1 s1 o2 s2, hd_error T1 = Some (o1, s1) -> hd_error T2 = Some (o2, s2) ->
  o1 + 16 * Z.of_nat (length T1) <= o2.

(** Before the position of the run scan: the text start, a character
    outside the run class, or a run too short to match from its
    beginning. *)
Definition runs_inv (minrun : Z) (P s : pystr) : Prop :=
  forall c, hd_error (rev P) = Some c -> run_char c = true ->
  run_len s = 0%nat \/ Z.of_nat (S (run_len s)) < minrun.

Definition tokenize_mixed_ascii := tokenize_mixed ascii_isalpha ascii_isupper ascii_islower.
Definition split_concatenated_names_ascii :=
  split_concatenated_names ascii_isupper ascii_islower.

Example tm_ex1 :
  tokenize_mixed_ascii (cps "AndersonDiamondMcNaughtonMacPherson")
  = map cps ["Anderson"; "Diamond"; "McNaughton"; "MacPherson"]%string.
Proof. reflexivity. Qed.

Example slot_ex1 :
  find_slot16_tables ascii_isalpha
    (concat (repeat ([4; 84; 101; 97; 109] ++ repeat 0 11) 10) ++ repeat 0 16)
  = [map (fun k => (16 * Z.of_nat k, cps "Team")) (seq 0 10)].
Proof. vm_compute. reflexivity. Qed.

Example pascal_ex1 :
  extract_pascal_strings ascii_isalpha
    (repeat 0 1500 ++ [8] ++ cps "AberdeenXYZ" ++ [0; 0]) 3 24
  = [(1500, cps "Aberdeen")].
Proof. vm_compute. reflexivity. Qed.

(** * Properties of the Token Segmenter *)

Lemma str_eqb_eq (a b : pystr) : str_eqb a b = true -> a = b.
Proof.
  revert b; induction a as [|x a IH]; intros [|y b]; simpl; try discriminate; auto.
  intros H; apply andb_prop in H as [H1 H2].
  apply Z.eqb_eq in H1; subst; f_equal; auto.
Qed.

Lemma adjacent_ok_single R c : adjacent_ok R [c].
Proof.
  intros a ch b H Ha. destruct a as [|x a]; [congruence|].
  destruct a; discriminate.
Qed.

Lemma adjacent_ok_snoc R cur c :
  adjacent_ok R cur -> (cur <> [] -> R cur c) -> adjacent_ok R (cur ++ [c]).
Proof.
  intros Hcur Hlast a ch b H Ha.
  induction b as [|x b' _] using rev_ind.
  - apply app_inj_tail in H as [-> ->]. auto.
  - rewrite app_comm_cons, app_assoc in H.
    apply app_inj_tail in H as [H _]. eapply Hcur; eauto.
Qed.

Section SegmenterProofs.

Variables isalpha isupper islower : Z -> bool.

Lemma flush_good cur toks :
  Forall (fun c => token_char isalpha c = true) cur -> Forall (good_token isalpha) toks ->
  Forall (good_token isalpha) (flush cur toks).
Proof.
  unfold flush; destruct cur as [|c cur]; simpl; intros Hc Ht; auto.
  apply Forall_app; split; auto. constructor; [|constructor].
  split; [discriminate | auto].
Qed.

Lemma tm_boundary_good s : forall cur toks,
  Forall (fun c => token_char isalpha c = true) cur -> Forall (good_token isalpha) toks ->
  Forall (good_token isalpha) (tm_boundary isalpha isupper islower s cur toks).
Proof.
  induction s as [|ch s IH]; intros cur toks Hc Ht; simpl.
  - apply flush_good; auto.
  - destruct (ch =? 32); [apply IH; auto using flush_good|].
    destruct (isalpha ch || (ch =? 39) || (ch =? 45)) eqn:Ech; simpl.
    + destruct (negb (is_nil cur) && isupper ch && islower (last cur 0)).
      * apply IH; auto using flush_good.
      * apply IH; auto. apply Forall_app; split; auto.
    + apply IH; auto using flush_good.
Qed.

Lemma merge_prefix_good pre toks :
  Forall (good_token isalpha) toks -> Forall (good_token isalpha) (merge_prefix pre toks).
Proof.
  revert toks; fix IH 1; intros [|t rest] H; simpl; [constructor|].
  inversion H as [|? ? Ht Hrest]; subst.
  destruct (str_eqb t pre) eqn:E.
  - apply str_eqb_eq in E; subst.
    destruct rest as [|u rest']; [constructor; auto|].
    inversion Hrest as [|? ? Hu Hrest']; subst.
    constructor; [|apply IH; auto].
    destruct Ht as [Hne Hc]; destruct Hu as [_ Hu].
    split; [intros Hnil; apply app_eq_nil in Hnil as [Hnil _]; auto
           | apply Forall_app; auto].
  - constructor; auto.
Qed.

(** Tokens of the boundary pass of [tokenize_mixed] have no inner
    lowercase-to-uppercase transition. *)
Lemma tm_boundary_no_transition s : forall cur toks,
  adjacent_ok (fun a ch => islower (last a 0) = true -> isupper ch = false) cur ->
  Forall (adjacent_ok (fun a ch => islower (last a 0) = true -> isupper ch = false)) toks ->
  Forall (adjacent_ok (fun a ch => islower (last a 0) = true -> isupper ch = false))
    (tm_boundary isalpha isupper islower s cur toks).
Proof.
  assert (Hfl : forall (R : pystr -> Z -> Prop) cur toks, adjacent_ok R cur ->
            Forall (adjacent_ok R) toks -> Forall (adjacent_ok R) (flush cur toks)).
  { intros R cur toks Hc Ht; unfold flush; destruct (is_nil cur); auto.
    apply Forall_app; auto. }
  induction s as [|ch s IH]; intros cur toks Hc Ht; simpl.
  - apply Hfl; auto.
  - destruct (ch =? 32).
    { apply IH; [intros a ? ? H; destruct a; discriminate | auto]. }
    destruct (negb (isalpha ch || (ch =? 39) || (ch =? 45))).
    { apply IH; [intros a ? ? H; destruct a; discriminate | auto]. }
    destruct (negb (is_nil cur) && isupper ch && islower (last cur 0)) eqn:E.
    + apply IH; [apply adjacent_ok_single | auto].
    + apply IH; auto. apply adjacent_ok_snoc; auto.
      intros Hne Hl. destruct cur as [|c cur]; [congruence|].
      rewrite Hl, andb_true_r in E. exact E.
Qed.

Lemma scn_loop_mc_kept rest : forall prev cur parts,
  cur <> [] -> last cur 0 = prev -> adjacent_ok (mc_kept isupper islower) cur ->
  Forall (adjacent_ok (mc_kept isupper islower)) parts ->
  Forall (adjacent_ok (mc_kept isupper islower)) (scn_loop isupper islower prev rest cur parts).
Proof.
  induction rest as [|ch rest IH]; intros prev cur parts Hne Hl Hc Hp; simpl.
  - apply Forall_app; auto.
  - assert (Hlast : last (cur ++ [ch]) 0 = ch) by (rewrite last_last; auto).
    assert (Hne' : cur ++ [ch] <> []) by (destruct cur; discriminate).
    destruct (isupper ch && islower prev) eqn:E.
    + destruct (ends_with cur Mac || ends_with cur Mc) eqn:Em.
      * apply IH; auto. apply adjacent_ok_snoc; auto.
        intros _ _ _; exact Em.
      * apply IH; try discriminate; auto using adjacent_ok_single.
        apply Forall_app; auto.
    + apply IH; auto. apply adjacent_ok_snoc; auto.
      intros _ Hlo Hup. rewrite Hl in Hlo. rewrite Hlo, Hup in E. discriminate.
Qed.

(** C5 (amended): every token of [tokenize_mixed] is non-empty and made
    only of letters ([str.isalpha]), apostrophes and hyphens.  Its length
    and first character are not constrained. *)
Theorem tokenize_mixed_token_chars s t :
  In t (tokenize_mixed isalpha isupper islower s) ->
  t <> [] /\ Forall (fun c => (isalpha c || (c =? 39) || (c =? 45)) = true) t.
Proof.
  intros Hin.
  assert (H : Forall (good_token isalpha) (tokenize_mixed isalpha isupper islower s)).
  { unfold tokenize_mixed. apply merge_prefix_good, merge_prefix_good.
    apply tm_boundary_good; constructor. }
  rewrite Forall_forall in H. apply H, Hin.
Qed.

(** C6 (amended): the boundary passes of the two segmenters.
    [tokenize_mixed] has no exception: none of its boundary tokens holds a
    lowercase character followed by an uppercase one.  In
    [split_concatenated_names] such a transition stays inside a part only
    after a prefix that ends with "Mac" or "Mc" (not only one equal to it),
    and after such a prefix the uppercase character is accumulated. *)
Theorem segmenter_boundary_rule :
  (forall s t, In t (tm_boundary isalpha isupper islower s [] []) ->
     forall a ch b, t = a ++ ch :: b -> a <> [] ->
     islower (last a 0) = true -> isupper ch = false)
  /\ (forall blob p, In p (split_boundary isupper islower blob) ->
     forall a ch b, p = a ++ ch :: b -> a <> [] ->
     islower (last a 0) = true -> isupper ch = true ->
     (ends_with a Mac || ends_with a Mc) = true)
  /\ (forall prev ch rest cur parts,
     islower prev = true -> isupper ch = true ->
     (ends_with cur Mac || ends_with cur Mc) = true ->
     scn_loop isupper islower prev (ch :: rest) cur parts
     = scn_loop isupper islower ch rest (cur ++ [ch]) parts).
Proof.
  split; [|split].
  - intros s t Hin.
    assert (H := tm_boundary_no_transition s [] [] ltac:(intros a ? ? ? Ha; destruct a; discriminate)
                   (Forall_nil _)).
    rewrite Forall_forall in H. apply H, Hin.
  - intros [|c r] p Hin; [destruct Hin|].
    assert (H : Forall (adjacent_ok (mc_kept isupper islower)) (split_boundary isupper islower (c :: r))).
    { apply scn_loop_mc_kept; try discriminate; auto using adjacent_ok_single. }
    rewrite Forall_forall in H. apply H, Hin.
  - intros prev ch rest cur parts Hl Hu He. simpl. rewrite Hu, Hl, He. reflexivity.
Qed.

End SegmenterProofs.

(** C1: segmenting "AndersonDiamondMcNaughtonMacPherson" yields exactly
    ["Anderson"; "Diamond"; "McNaughton"; "MacPherson"], with both
    segmenters ([tokenize_mixed] and [split_concatenated_names]); on this
    ASCII input Python's character classes are the ASCII ones. *)
Theorem segmenter_concatenation_example :
  tokenize_mixed_ascii (cps "AndersonDiamondMcNaughtonMacPherson")
  = map cps ["Anderson"; "Diamond"; "McNaughton"; "MacPherson"]%string
  /\ split_concatenated_names_ascii (cps "AndersonDiamondMcNaughtonMacPherson")
  = map cps ["Anderson"; "Diamond"; "McNaughton"; "MacPherson"]%string.
Proof. split; reflexivity. Qed.

(** C5 (counterexample): [tokenize_mixed("X 'o")] is [["X", "'o"]]: a token
    of length 1 and a token starting with an apostrophe. *)
Theorem tokenize_mixed_token_shape_counterexample :
  tokenize_mixed_ascii (cps "X 'o") = [cps "X"; cps "'o"]
  /\ py_len (cps "X") = 1 /\ ascii_isalpha (hd 0 (cps "'o")) = false.
Proof. repeat split; reflexivity. Qed.

Lemma tokenize_mixed_token_chars_witness :
  In (cps "'o") (tokenize_mixed_ascii (cps "X 'o"))
  /\ cps "'o" <> []
  /\ Forall (fun c => (ascii_isalpha c || (c =? 39) || (c =? 45)) = true) (cps "'o").
Proof.
  assert (Hin : In (cps "'o") (tokenize_mixed_ascii (cps "X 'o")))
    by (vm_compute; right; left; reflexivity).
  split; [exact Hin|].
  exact (tokenize_mixed_token_chars ascii_isalpha ascii_isupper ascii_islower
           (cps "X 'o") (cps "'o") Hin).
Defined.

(** C6 (counterexample): [split_concatenated_names("AMcNab")] keeps one
    token although the accumulated "AMc" is not exactly "Mc", and the
    boundary pass of [tokenize_mixed] splits "MacPherson" after "Mac". *)
Theorem segmenter_boundary_exact_prefix_counterexample :
  split_concatenated_names_ascii (cps "AMcNab") = [cps "AMcNab"]
  /\ tm_boundary ascii_isalpha ascii_isupper ascii_islower (cps "MacPherson") [] []
     = [Mac; cps "Pherson"].
Proof. split; reflexivity. Qed.

Lemma segmenter_boundary_rule_witness :
  ascii_isupper 98 = false
  /\ (ends_with (cps "Mc") Mac || ends_with (cps "Mc") Mc) = true
  /\ scn_loop ascii_isupper ascii_islower 99 (cps "Nab") (cps "Mc") []
     = scn_loop ascii_isupper ascii_islower 78 (cps "ab") (cps "McN") [].
Proof.
  destruct (segmenter_boundary_rule ascii_isalpha ascii_isupper ascii_islower)
    as (H1 & H2 & H3).
  split; [|split].
  - apply (H1 (cps "abc") (cps "abc") ltac:(left; reflexivity) [97] 98 [99]);
      [reflexivity | discriminate | reflexivity].
  - apply (H2 (cps "McNab") (cps "McNab") ltac:(left; reflexivity) (cps "Mc") 78 (cps "ab"));
      [reflexivity | discriminate | reflexivity | reflexivity].
  - apply (H3 99 78 (cps "ab") (cps "Mc") []); reflexivity.
Defined.

(** C7: [tokenize_mixed] glues a standalone "Mc" to a following token that
    starts with a lowercase letter ("Mc naughton" becomes "Mcnaughton"),
    while the merge pass of [split_concatenated_names] leaves the same
    pair apart. *)
Theorem tokenize_mixed_merges_lowercase_follower :
  tm_boundary ascii_isalpha ascii_isupper ascii_islower (cps "Mc naughton") [] []
  = [Mc; cps "naughton"]
  /\ tokenize_mixed_ascii (cps "Mc naughton") = [cps "Mcnaughton"]
  /\ merge_mc_upper ascii_isupper [Mc; cps "naughton"] = [Mc; cps "naughton"].
Proof. repeat split; reflexivity. Qed.


(** * Slices, stripping and the Slot Table Scanner *)

Lemma py_slice_nat {A} (l : list A) a b :
  0 <= a <= b -> b <= py_len l ->
  py_slice l a b = firstn (Z.to_nat (b - a)) (skipn (Z.to_nat a) l).
Proof.
  intros Hab Hb. unfold py_slice, py_norm. cbv zeta.
  destruct (a <? 0) eqn:Ea; [apply Z.ltb_lt in Ea; lia|].
  destruct (b <? 0) eqn:Eb; [apply Z.ltb_lt in Eb; lia|].
  rewrite (Z.min_l a), (Z.min_l b) by lia. reflexivity.
Qed.

Lemma length_py_slice {A} (l : list A) a b :
  0 <= a <= b -> b <= py_len l -> py_len (py_slice l a b) = b - a.
Proof.
  intros Hab Hb. rewrite py_slice_nat by lia. unfold py_len in *.
  rewrite length_firstn, length_skipn. lia.
Qed.

Lemma py_slice_app_mid {A} (P r Q : list A) :
  py_slice (P ++ r ++ Q) (py_len P) (py_len P + py_len r) = r.
Proof.
  rewrite py_slice_nat by (unfold py_len; rewrite ?length_app; lia).
  replace (Z.to_nat (py_len P + py_len r - py_len P)) with (length r)
    by (unfold py_len; lia).
  replace (Z.to_nat (py_len P)) with (length P) by (unfold py_len; lia).
  rewrite skipn_app, skipn_all, Nat.sub_diag. simpl.
  rewrite firstn_app, firstn_all, Nat.sub_diag. simpl. apply app_nil_r.
Qed.

Lemma lstrip_spec s :
  exists pre, s = pre ++ lstrip s /\ Forall (fun c => py_isspace c = true) pre
  /\ forall c r, lstrip s = c :: r -> py_isspace c = false.
Proof.
  induction s as [|c s IH]; simpl.
  - exists []; repeat split; auto; discriminate.
  - destruct (py_isspace c) eqn:E.
    + destruct IH as (pre & Hs & Hpre & Hhd). exists (c :: pre).
      repeat split; auto; simpl; congruence.
    + exists []; repeat split; auto. intros c' r H; injection H; congruence.
Qed.

(** [str.strip()] removes a maximal run of whitespace at each end. *)
Lemma py_strip_spec s :
  exists pre post, s = pre ++ py_strip s ++ post
  /\ Forall (fun c => py_isspace c = true) pre
  /\ Forall (fun c => py_isspace c = true) post
  /\ (py_strip s = [] \/
      (py_isspace (hd 0 (py_strip s)) = false
       /\ py_isspace (last (py_strip s) 0) = false)).
Proof.
  destruct (lstrip_spec s) as (pre & Hs & Hpre & Hhd).
  destruct (lstrip_spec (rev (lstrip s))) as (pre2 & Hs2 & Hpre2 & Hhd2).
  unfold py_strip.
  assert (HX : lstrip s = rev (lstrip (rev (lstrip s))) ++ rev pre2).
  { rewrite <- rev_app_distr, <- Hs2, rev_involutive. reflexivity. }
  exists pre, (rev pre2). split; [|split; [|split]].
  - rewrite Hs at 1. rewrite HX at 1. reflexivity.
  - exact Hpre.
  - apply Forall_rev, Hpre2.
  - destruct (lstrip (rev (lstrip s))) as [|c r] eqn:EY; [left; reflexivity|].
    right. split.
    + destruct (rev (c :: r)) as [|d m] eqn:Em.
      { apply (f_equal (@length Z)) in Em. rewrite length_rev in Em. discriminate. }
      simpl. apply (Hhd d (m ++ rev pre2)). rewrite HX. reflexivity.
    + simpl. rewrite last_last. apply (Hhd2 c r). reflexivity.
Qed.

Lemma length_decode_cp437 raw : length (decode_cp437 raw) = length raw.
Proof. apply length_map. Qed.

Lemma length_concat_16 (recs : list pybytes) :
  Forall (fun r => length r = 16%nat) recs ->
  length (concat recs) = (16 * length recs)%nat.
Proof.
  induction 1 as [|r recs Hr _ IH]; simpl; auto.
  rewrite length_app, Hr, IH. lia.
Qed.

Section SlotProofs.

Variable isalpha : Z -> bool.

(** A slot read depends only on the 16 bytes at its offset. *)
Lemma read_slot16_app P r Q :
  length r = 16%nat ->
  read_slot16 isalpha (P ++ r ++ Q) (py_len P) = read_slot16 isalpha r 0.
Proof.
  intros Hr.
  assert (Hr' : py_len r = 16) by (unfold py_len; rewrite Hr; reflexivity).
  assert (E1 : py_slice (P ++ r ++ Q) (py_len P) (py_len P + 16) = r)
    by (rewrite <- Hr'; apply py_slice_app_mid).
  assert (E2 : py_slice r 0 (0 + 16) = r).
  { pose proof (py_slice_app_mid [] r []) as H.
    rewrite app_nil_l, app_nil_r, Hr' in H. exact H. }
  assert (E3 : (py_len (P ++ r ++ Q) <? py_len P + 16) = false).
  { apply Z.ltb_ge. unfold py_len in *. rewrite !length_app. lia. }
  assert (E4 : (py_len r <? 0 + 16) = false) by (rewrite Hr'; reflexivity).
  unfold read_slot16. rewrite E1, E2, E3, E4. reflexivity.
Qed.

Lemma slot_run_recs bad recs : forall strs P fuel,
  Forall2 (fun r s => length r = 16%nat /\ read_slot16 isalpha r 0 = Some s) recs strs ->
  length bad = 16%nat -> read_slot16 isalpha bad 0 = None ->
  (length recs < fuel)%nat ->
  slot_run isalpha (P ++ concat recs ++ bad) (py_len P) fuel
  = combine (map (fun k => py_len P + 16 * Z.of_nat k) (seq 0 (length strs))) strs.
Proof.
  induction recs as [|r recs IH]; intros strs P fuel H2 Hb Hbad Hf;
    inversion H2 as [|? s ? strs' [Hr Hs] H2']; subst.
  - destruct fuel as [|f]; [simpl in Hf; lia|]. cbn [slot_run concat app].
    rewrite <- (app_nil_r bad), read_slot16_app, Hbad by exact Hb. reflexivity.
  - destruct fuel as [|f]; [simpl in Hf; lia|]. cbn [slot_run concat].
    rewrite <- app_assoc, read_slot16_app, Hs by exact Hr.
    cbn [length seq map combine]. f_equal.
    + f_equal. lia.
    + replace (py_len P + 16) with (py_len (P ++ r))
        by (unfold py_len; rewrite length_app, Hr; lia).
      rewrite (app_assoc P r), (IH strs' (P ++ r) f H2' Hb Hbad) by (simpl in Hf; lia).
      rewrite <- seq_shift, map_map. f_equal. apply map_ext. intros k.
      unfold py_len. rewrite length_app, Hr. lia.
Qed.

(** C2: ten valid 16-byte slots followed by one invalid slot give exactly
    one table, made of the ten slots. *)
Theorem find_slot16_tables_ten_valid_then_invalid recs strs bad :
  Forall2 (fun r s => length r = 16%nat /\ read_slot16 isalpha r 0 = Some s) recs strs ->
  length recs = 10%nat ->
  length bad = 16%nat -> read_slot16 isalpha bad 0 = None ->
  find_slot16_tables isalpha (concat recs ++ bad)
  = [combine [0; 16; 32; 48; 64; 80; 96; 112; 128; 144] strs].
Proof.
  intros H2 Hlen Hb Hbad.
  assert (Hs : length strs = 10%nat) by (rewrite <- (Forall2_length H2); exact Hlen).
  assert (Hl : length (concat recs ++ bad) = 176%nat).
  { assert (Hc : Forall (fun r => length r = 16%nat) recs).
    { clear -H2. induction H2 as [|r s recs strs [Hr _] _ IH]; constructor; auto. }
    rewrite length_app, (length_concat_16 recs Hc), Hb.
    unfold pybytes. rewrite Hlen. reflexivity. }
  assert (Hrun : slot_run isalpha (concat recs ++ bad) 0 176
                 = combine [0; 16; 32; 48; 64; 80; 96; 112; 128; 144] strs).
  { pose proof (slot_run_recs bad recs strs [] 176 H2 Hb Hbad ltac:(lia)) as H.
    rewrite app_nil_l, Hs in H. exact H. }
  assert (Hpl : py_len (concat recs ++ bad) = 176) by (unfold py_len; rewrite Hl; reflexivity).
  assert (Hpc : py_len (combine [0; 16; 32; 48; 64; 80; 96; 112; 128; 144] strs) = 10)
    by (unfold py_len; rewrite length_combine, Hs; reflexivity).
  unfold find_slot16_tables. rewrite Hl.
  change 176%nat with (S (S 174)). generalize 174%nat; intros f.
  cbn [find_tables_loop]. rewrite Hl, Hrun, Hpl, Hpc.
  replace (0 <? 176 - 16) with true by reflexivity.
  replace (8 <=? 10) with true by reflexivity.
  cbn [find_tables_loop]. reflexivity.
Qed.

(** C9 (amended): a valid slot has its length byte [L] in [1, 15], and its
    text is the [L] bytes after it, decoded, with the whitespace removed at
    BOTH ends: its length is [L] minus the leading and the trailing
    whitespace characters. *)
Theorem read_slot16_decoded_text data off s :
  0 <= off -> read_slot16 isalpha data off = Some s ->
  1 <= byte_at data off <= 15 /\ off + 16 <= py_len data /\
  exists pre post,
    decode_cp437 (py_slice data (off + 1) (off + 1 + byte_at data off)) = pre ++ s ++ post
    /\ Forall (fun c => py_isspace c = true) pre
    /\ Forall (fun c => py_isspace c = true) post
    /\ py_isspace (hd 0 s) = false /\ py_isspace (last s 0) = false
    /\ py_len s = byte_at data off - py_len pre - py_len post.
Proof.
  intros Hoff Hread. unfold read_slot16 in Hread. cbv zeta in Hread.
  destruct (py_len data <? off + 16) eqn:Elen; [discriminate|].
  apply Z.ltb_ge in Elen.
  assert (Hblk : py_slice data off (off + 16)
                 = firstn 16 (skipn (Z.to_nat off) data)).
  { rewrite py_slice_nat by lia. f_equal. lia. }
  rewrite Hblk in Hread.
  assert (HL : nth 0 (firstn 16 (skipn (Z.to_nat off) data)) 0 = byte_at data off).
  { rewrite nth_firstn, nth_skipn, Nat.add_0_r. reflexivity. }
  rewrite HL in Hread.
  destruct ((1 <=? byte_at data off) && (byte_at data off <=? 15)) eqn:EL;
    [|discriminate]. cbn [negb] in Hread.
  apply andb_prop in EL as [EL1 EL2]. apply Z.leb_le in EL1, EL2.
  assert (Hlen16 : py_len (firstn 16 (skipn (Z.to_nat off) data)) = 16).
  { unfold py_len in *. rewrite length_firstn, length_skipn. lia. }
  assert (Hraw : py_slice (firstn 16 (skipn (Z.to_nat off) data)) 1 (1 + byte_at data off)
                 = py_slice data (off + 1) (off + 1 + byte_at data off)).
  { rewrite !py_slice_nat by lia.
    rewrite skipn_firstn_comm, firstn_firstn, skipn_skipn.
    f_equal; [lia | f_equal; lia]. }
  rewrite Hraw in Hread.
  set (raw := py_slice data (off + 1) (off + 1 + byte_at data off)) in *.
  destruct (is_nil (py_strip (decode_cp437 raw))
            || negb (existsb isalpha (py_strip (decode_cp437 raw)))) eqn:E1;
    [discriminate|].
  destruct (existsb (fun ch => negb (allowed_char ch)) (py_strip (decode_cp437 raw)));
    [discriminate|].
  injection Hread as <-.
  split; [lia|split; [lia|]].
  destruct (py_strip_spec (decode_cp437 raw)) as (pre & post & Hd & Hpre & Hpost & Hend).
  exists pre, post. repeat split; auto.
  - destruct Hend as [Hnil|[H _]]; [rewrite Hnil in E1; discriminate|exact H].
  - destruct Hend as [Hnil|[_ H]]; [rewrite Hnil in E1; discriminate|exact H].
  - assert (Hr : py_len raw = byte_at data off).
    { unfold raw. rewrite length_py_slice by lia. lia. }
    apply (f_equal (@length Z)) in Hd.
    rewrite length_decode_cp437, !length_app in Hd.
    unfold py_len in *. lia.
Qed.

End SlotProofs.

Lemma find_slot16_tables_ten_valid_then_invalid_witness :
  find_slot16_tables ascii_isalpha
    (concat (repeat ([4; 84; 101; 97; 109] ++ repeat 0 11) 10) ++ repeat 0 16)
  = [combine [0; 16; 32; 48; 64; 80; 96; 112; 128; 144] (repeat (cps "Team") 10)].
Proof.
  apply (find_slot16_tables_ten_valid_then_invalid ascii_isalpha).
  - simpl. repeat constructor.
  - reflexivity.
  - reflexivity.
  - reflexivity.
Defined.

(** C9 (counterexample): the slot [\x05 Abcd] decodes to "Abcd", of length
    4, although its 5 text bytes end in the non-padding byte 'd'. *)
Theorem read_slot16_leading_space_counterexample :
  read_slot16 ascii_isalpha ([5; 32] ++ cps "Abcd" ++ repeat 0 10) 0 = Some (cps "Abcd")
  /\ byte_at ([5; 32] ++ cps "Abcd" ++ repeat 0 10) 0 = 5
  /\ py_len (cps "Abcd") = 4
  /\ py_isspace (byte_at ([5; 32] ++ cps "Abcd" ++ repeat 0 10) 5) = false.
Proof. repeat split; reflexivity. Qed.

Lemma read_slot16_decoded_text_witness :
  1 <= byte_at ([5; 32] ++ cps "Abcd" ++ repeat 0 10) 0 <= 15.
Proof.
  destruct (read_slot16_decoded_text ascii_isalpha ([5; 32] ++ cps "Abcd" ++ repeat 0 10)
              0 (cps "Abcd") ltac:(lia) ltac:(reflexivity)) as [H _].
  exact H.
Defined.

(** * Properties of the Unaligned Pascal Scanner *)

Lemma byte_at_nonneg data i : bytes_ok data -> 0 <= byte_at data i.
Proof.
  unfold bytes_ok, byte_at; intros H.
  destruct (Nat.lt_ge_cases (Z.to_nat i) (length data)) as [Hl|Hl].
  - rewrite Forall_forall in H. apply H, nth_In, Hl.
  - rewrite nth_overflow by exact Hl. lia.
Qed.

Section PascalProofs.

Variable isalpha : Z -> bool.

Lemma pascal_step_progress data mn mx i :
  bytes_ok data -> i + 1 <= snd (pascal_step isalpha data mn mx i).
Proof.
  intros Hok; pose proof (byte_at_nonneg data i Hok).
  unfold pascal_step.
  destruct (_ && _ && _); [destruct (is_printable_name_bytes _)|]; simpl; lia.
Qed.

Lemma pascal_step_emits data mn mx i q t :
  fst (pascal_step isalpha data mn mx i) = Some (q, t) -> q = i.
Proof.
  unfold pascal_step.
  destruct (_ && _ && _); [destruct (is_printable_name_bytes _)|]; simpl;
    try discriminate.
  destruct (existsb _ _); congruence.
Qed.

(** The loop result does not depend on the fuel once the fuel covers the
    remaining bytes. *)
Lemma pascal_loop_fuel data mn mx : bytes_ok data ->
  forall n i m, (Z.to_nat (py_len data - i) <= n)%nat -> (n <= m)%nat ->
  pascal_loop isalpha data mn mx i n = pascal_loop isalpha data mn mx i m.
Proof.
  intros Hok; induction n as [|n IH]; intros i m Hn Hm.
  - destruct m as [|m]; [reflexivity|]. simpl.
    destruct (Z.ltb_spec i (py_len data - 2)); [lia | reflexivity].
  - destruct m as [|m]; [lia|]. simpl.
    destruct (i <? py_len data - 2); [|reflexivity].
    pose proof (pascal_step_progress data mn mx i Hok) as Hp.
    destruct (pascal_step isalpha data mn mx i) as [o j]; simpl in Hp.
    assert (Hj : (Z.to_nat (py_len data - j) <= n)%nat) by lia.
    destruct o as [t|]; [f_equal|]; apply IH; lia.
Qed.

(** One iteration of the loop, unrolled at cursor [i]. *)
Lemma pascal_from_unfold data mn mx i :
  bytes_ok data -> 0 <= i < py_len data - 2 ->
  pascal_from isalpha data mn mx i =
  let '(o, j) := pascal_step isalpha data mn mx i in
  match o with
  | Some t => t :: pascal_from isalpha data mn mx j
  | None => pascal_from isalpha data mn mx j
  end.
Proof.
  intros Hok Hi. unfold pascal_from at 1.
  destruct (length data) as [|k] eqn:Hlen.
  { unfold py_len in Hi; rewrite Hlen in Hi; lia. }
  cbn [pascal_loop]. replace (i <? py_len data - 2) with true by (symmetry; apply Z.ltb_lt; lia).
  pose proof (pascal_step_progress data mn mx i Hok) as Hp.
  destruct (pascal_step isalpha data mn mx i) as [o j]; simpl in Hp.
  assert (Hk : (Z.to_nat (py_len data - j) <= k)%nat)
    by (unfold py_len in *; rewrite Hlen in *; lia).
  destruct o as [t|]; [f_equal|]; unfold pascal_from;
    apply pascal_loop_fuel; auto; rewrite Hlen; lia.
Qed.

(** Every offset emitted from cursor [i] on is at least [i]. *)
Lemma pascal_loop_offsets data mn mx : bytes_ok data ->
  forall fuel i q t, In (q, t) (pascal_loop isalpha data mn mx i fuel) -> i <= q.
Proof.
  intros Hok; induction fuel as [|f IH]; intros i q t Hin; simpl in Hin; [contradiction|].
  destruct (i <? py_len data - 2); [|contradiction].
  pose proof (pascal_step_progress data mn mx i Hok) as Hp.
  pose proof (pascal_step_emits data mn mx i) as He.
  destruct (pascal_step isalpha data mn mx i) as [o j]; simpl in Hp, He.
  destruct o as [[q' t']|].
  - destruct Hin as [Heq|Hin].
    + injection Heq as <- <-. rewrite (He q' t' eq_refl). lia.
    + apply IH in Hin. lia.
  - apply IH in Hin. lia.
Qed.

(** ** C8 (amended)

    Claim C8.  With the cursor of [extract_pascal_strings] at [p]
    (bytes in [0, 255], [p < len(data) - 2]) and [L = data[p]]: when [L]
    lies in [[min_len, max_len]], the [L] bytes fit and are all printable
    name bytes, the scan emits [(p, s)] exactly when the stripped text [s]
    has a letter, and in both cases resumes at [p + 1 + L], from which no
    token with an offset below [p + 1 + L] is emitted; on any other
    candidate it resumes at [p + 1]. *)
Theorem extract_pascal_strings_cursor data min_len max_len p :
  bytes_ok data -> 0 <= p < py_len data - 2 ->
  let L := byte_at data p in
  let sbytes := py_slice data (p + 1) (p + 1 + L) in
  let s := py_strip (decode_cp437 sbytes) in
  ((min_len <=? L) && (L <=? max_len) && (p + 1 + L <=? py_len data)
     && is_printable_name_bytes sbytes = true ->
   pascal_from isalpha data min_len max_len p =
     (if existsb isalpha s then [(p, s)] else [])
     ++ pascal_from isalpha data min_len max_len (p + 1 + L)
   /\ forall q t, In (q, t) (pascal_from isalpha data min_len max_len (p + 1 + L)) ->
        p + 1 + L <= q)
  /\
  ((min_len <=? L) && (L <=? max_len) && (p + 1 + L <=? py_len data)
     && is_printable_name_bytes sbytes = false ->
   pascal_from isalpha data min_len max_len p =
     pascal_from isalpha data min_len max_len (p + 1)).
Proof.
  intros Hok Hp L sbytes s.
  rewrite (pascal_from_unfold data min_len max_len p Hok Hp).
  unfold pascal_step. fold L. fold sbytes. fold s.
  split.
  - intros H. apply andb_prop in H as [H1 H2].
    rewrite H1, H2. split.
    + destruct (existsb isalpha s); reflexivity.
    + intros q t Hin. eapply pascal_loop_offsets; eauto.
  - intros H.
    destruct ((min_len <=? L) && (L <=? max_len) && (p + 1 + L <=? py_len data)) eqn:E1;
      [|reflexivity].
    simpl in H. rewrite H. reflexivity.
Qed.

End PascalProofs.

(** C8: a printable candidate whose text has no letter is skipped whole.
    With [min_len = 2], [max_len = 40], the candidate ". " at offset 0 is
    printable, has no letter, and moves the cursor to 3, not 1; the token
    of length 32 at offset 2 is then never seen, although the scan from
    offset 2 reports it. *)
Lemma extract_pascal_strings_skip_counterexample :
  pascal_step ascii_isalpha ([2; 46; 32] ++ repeat 65 32 ++ [0; 0]) 2 40 0 = (None, 3)
  /\ extract_pascal_strings ascii_isalpha ([2; 46; 32] ++ repeat 65 32 ++ [0; 0]) 2 40 = []
  /\ pascal_from ascii_isalpha ([2; 46; 32] ++ repeat 65 32 ++ [0; 0]) 2 40 2
     = [(2, repeat 65 32)].
Proof. vm_compute. repeat split. Qed.

Lemma extract_pascal_strings_cursor_witness :
  pascal_from ascii_isalpha ([8] ++ cps "AberdeenXYZ" ++ [0; 0]) 3 24 0
  = [(0, cps "Aberdeen")] ++ pascal_from ascii_isalpha ([8] ++ cps "AberdeenXYZ" ++ [0; 0]) 3 24 9.
Proof.
  destruct (extract_pascal_strings_cursor ascii_isalpha ([8] ++ cps "AberdeenXYZ" ++ [0; 0])
              3 24 0 ltac:(unfold bytes_ok; simpl; repeat (apply Forall_cons; [lia|]); apply Forall_nil) ltac:(unfold py_len; simpl; lia))
    as [H _].
  exact (proj1 (H ltac:(reflexivity))).
Defined.

(** * Properties of the Block Mapper *)

Lemma squadA_some tokens sti chunkA offsetA idx sq :
  0 <= chunkA ->
  squadA tokens sti chunkA offsetA idx = Some sq ->
  let start := offsetA + (idx - sti) * chunkA in
  0 <= start /\ start + chunkA <= py_len tokens
  /\ sq = py_slice tokens start (start + chunkA) /\ py_len sq = chunkA.
Proof.
  intros Hc H start. unfold squadA in H. fold start in H.
  destruct (Z.ltb_spec start 0); [discriminate|].
  destruct (Z.ltb_spec (py_len tokens) (start + chunkA)); [discriminate|].
  injection H as <-. repeat split; try lia.
  rewrite length_py_slice; lia.
Qed.

Lemma rowsA_loop_spec tokens sti chunkA offsetA names : 0 <= chunkA ->
  forall idx0 idx name sq,
  In (idx, name, sq) (rowsA_loop tokens sti chunkA offsetA idx0 names) ->
  sti <= idx /\ squadA tokens sti chunkA offsetA idx = Some sq.
Proof.
  intros Hc; induction names as [|n rest IH]; intros idx0 idx name sq Hin;
    simpl in Hin; [contradiction|].
  destruct (Z.ltb_spec idx0 sti); [eapply IH; eauto|].
  destruct (squadA tokens sti chunkA offsetA idx0) as [sq0|] eqn:E;
    [|eapply IH; eauto].
  destruct (is_nil sq0); [eapply IH; eauto|].
  destruct Hin as [Heq|Hin]; [|eapply IH; eauto].
  injection Heq as <- <- <-. auto.
Qed.

Lemma in_py_range a b s xs x :
  py_range a b s = Some xs -> In x xs -> exists k, 0 <= k /\ x = a + k * s.
Proof.
  unfold py_range. destruct (s =? 0); [discriminate|].
  intros H; injection H as <-. intros Hin.
  apply in_map_iff in Hin as [k [<- _]]. exists (Z.of_nat k); split; lia.
Qed.

Lemma blocksB_loop_spec tokens chunkB offsetB : 0 <= offsetB -> 0 < chunkB ->
  forall starts bid0 bid bstart blk,
  (forall x, In x starts -> exists k, 0 <= k /\ x = offsetB + k * chunkB) ->
  In (bid, bstart, blk) (blocksB_loop tokens chunkB starts bid0) ->
  exists k, 0 <= k /\ bstart = offsetB + k * chunkB /\ 0 <= bstart
  /\ bstart + chunkB <= py_len tokens
  /\ blk = py_slice tokens bstart (bstart + chunkB) /\ py_len blk = chunkB.
Proof.
  intros Ho Hc; induction starts as [|x rest IH]; intros bid0 bid bstart blk Hst Hin;
    simpl in Hin; [contradiction|].
  assert (Hrest : forall y, In y rest -> exists k, 0 <= k /\ y = offsetB + k * chunkB)
    by (intros y Hy; apply Hst; right; exact Hy).
  destruct (Z.ltb_spec (py_len tokens) (x + chunkB)); [contradiction|].
  destruct (12 <=? count_name_like (py_slice tokens x (x + chunkB)));
    [|eapply IH; eauto].
  destruct Hin as [Heq|Hin]; [|eapply IH; eauto].
  injection Heq as <- <- <-.
  destruct (Hst x (or_introl eq_refl)) as [k [Hk ->]].
  exists k. repeat split; try lia; try nia.
  rewrite length_py_slice; nia.
Qed.

(** The two modes for any parameters: per-index windows for a block size
    [chunkA >= 0], sequential windows for a bias [offsetB >= 0] and a block
    size [chunkB > 0]. *)
Lemma block_mapper_windows_param :
  (forall tokens names sti chunkA offsetA idx name sq,
     0 <= chunkA ->
     In (idx, name, sq) (rowsA tokens names sti chunkA offsetA) ->
     let start := offsetA + (idx - sti) * chunkA in
     sti <= idx /\ 0 <= start /\ start + chunkA <= py_len tokens
     /\ sq = py_slice tokens start (start + chunkA) /\ py_len sq = chunkA)
  /\ (forall tokens sti chunkA offsetA idx,
       let start := offsetA + (idx - sti) * chunkA in
       start < 0 \/ py_len tokens < start + chunkA ->
       squadA tokens sti chunkA offsetA idx = None)
  /\ (forall tokens offsetB chunkB,
       0 <= offsetB -> 0 < chunkB ->
       exists out, blocksB tokens offsetB chunkB = Some out /\
       forall bid bstart blk, In (bid, bstart, blk) out ->
         exists k, 0 <= k /\ bstart = offsetB + k * chunkB /\ 0 <= bstart
         /\ bstart + chunkB <= py_len tokens
         /\ blk = py_slice tokens bstart (bstart + chunkB) /\ py_len blk = chunkB).
Proof.
  split; [|split].
  - intros tokens names sti chunkA offsetA idx name sq Hc Hin start.
    destruct (rowsA_loop_spec tokens sti chunkA offsetA names Hc 0 idx name sq Hin)
      as [Hi Hsq].
    split; [exact Hi|]. exact (squadA_some tokens sti chunkA offsetA idx sq Hc Hsq).
  - intros tokens sti chunkA offsetA idx start H. unfold squadA. fold start.
    destruct H as [H|H].
    + apply Z.ltb_lt in H. rewrite H. reflexivity.
    + apply Z.ltb_lt in H. rewrite H, orb_true_r. reflexivity.
  - intros tokens offsetB chunkB Ho Hc. unfold blocksB.
    destruct (py_range offsetB (py_len tokens) chunkB) as [starts|] eqn:Er.
    + eexists; split; [reflexivity|].
      intros bid bstart blk Hin.
      eapply (blocksB_loop_spec tokens chunkB offsetB Ho Hc starts 0); eauto.
      intros x Hx. eapply in_py_range; eauto.
    + unfold py_range in Er. destruct (Z.eqb_spec chunkB 0); [lia | discriminate].
Qed.

(** ** C4

    Claim C4.  With the constants of [main] ([start_team_index = 7],
    [chunkA = 21], [offsetA = -2]; [offsetB = 10], [chunkB = 16]) and for
    every token stream and team list: every row [(i, name, sq)] of the
    per-index mode has [i >= 7], a window start
    [-2 + (i - 7) * 21 >= 0] whose window fits in the stream, and [sq] is
    that window, of length exactly 21; an index whose window starts below
    0 or overruns the stream gets [None] from [squadA] and yields no row.
    The sequential mode raises no error, and each block
    [(id, bstart, blk)] starts at [10 + k * 16 >= 0] for some [k >= 0],
    fits in the stream, and [blk] is that window, of length exactly 16. *)
Theorem block_mapper_windows_main :
  (forall tokens names idx name sq,
     In (idx, name, sq) (rowsA tokens names 7 21 (-2)) ->
     let start := -2 + (idx - 7) * 21 in
     7 <= idx /\ 0 <= start /\ start + 21 <= py_len tokens
     /\ sq = py_slice tokens start (start + 21) /\ py_len sq = 21)
  /\ (forall tokens idx,
       let start := -2 + (idx - 7) * 21 in
       start < 0 \/ py_len tokens < start + 21 ->
       squadA tokens 7 21 (-2) idx = None)
  /\ (forall tokens,
       exists out, blocksB tokens 10 16 = Some out /\
       forall bid bstart blk, In (bid, bstart, blk) out ->
         exists k, 0 <= k /\ bstart = 10 + k * 16 /\ 0 <= bstart
         /\ bstart + 16 <= py_len tokens
         /\ blk = py_slice tokens bstart (bstart + 16) /\ py_len blk = 16).
Proof.
  destruct block_mapper_windows_param as (HA & Hnone & HB).
  split; [|split].
  - intros tokens names idx name sq Hin. exact (HA tokens names 7 21 (-2) idx name sq
      ltac:(lia) Hin).
  - intros tokens idx. exact (Hnone tokens 7 21 (-2) idx).
  - intros tokens. exact (HB tokens 10 16 ltac:(lia) ltac:(lia)).
Qed.

(** * Properties of the Numeric Table Solver *)

Lemma unpack_u16s_length data n off vals :
  unpack_u16s data n off = Some vals -> length vals = Z.to_nat n.
Proof.
  unfold unpack_u16s. destruct (_ || _); [discriminate|].
  intros H; injection H as <-. rewrite length_map, length_seq. reflexivity.
Qed.

(** With no anchors every scale at an offset is recorded with error 0. *)
Lemma scan_scales_nil_truth vals off ks : vals <> [] ->
  exists cs, scan_scales vals [] off ks = Some cs /\
  forall c, In c cs <->
    exists k mn mx, In k ks /\ py_min (map (fun v => v * k) vals) = Some mn
      /\ py_max (map (fun v => v * k) vals) = Some mx
      /\ c = mk_candidate off k (0 # 1) mn mx.
Proof.
  intros Hv. destruct vals as [|x r]; [congruence|].
  induction ks as [|k ks IH].
  - exists []; split; [reflexivity|]. intros c; split; [contradiction|].
    intros (k & mn & mx & [] & _).
  - destruct IH as [cs [Hcs Hin]].
    eexists; split.
    + simpl scan_scales. rewrite Hcs. reflexivity.
    + intros c; split.
      * intros [<-|Hc].
        -- exists k; do 2 eexists; split; [left; reflexivity|]. split; [reflexivity|split; reflexivity].
        -- apply Hin in Hc as (k' & mn & mx & Hk & H1 & H2 & ->).
           exists k', mn, mx. split; [right; exact Hk|auto].
      * intros (k' & mn & mx & [<-|Hk] & H1 & H2 & ->).
        -- left. simpl in H1, H2. injection H1 as <-. injection H2 as <-. reflexivity.
        -- right. apply Hin. exists k', mn, mx. auto.
Qed.

Lemma scan_offsets_nil_truth data n scales offs : 1 <= n ->
  exists out, scan_offsets data n [] scales offs = Some out /\
  forall c, In c out <->
    exists off vals mx k mn' mx', In off offs /\ unpack_u16s data n off = Some vals
      /\ py_max vals = Some mx /\ mx <> 0 /\ In k scales
      /\ py_min (map (fun v => v * k) vals) = Some mn'
      /\ py_max (map (fun v => v * k) vals) = Some mx'
      /\ c = mk_candidate off k (0 # 1) mn' mx'.
Proof.
  intros Hn. induction offs as [|off offs IH].
  - exists []; split; [reflexivity|]. intros c; split; [contradiction|].
    intros (off & vals & mx & k & mn' & mx' & [] & _).
  - destruct IH as [rest [Hrest Hin]].
    assert (Hc : exists cs, cands_at data n [] scales off = Some cs /\
              forall c, In c cs <->
                exists vals mx k mn' mx', unpack_u16s data n off = Some vals
                  /\ py_max vals = Some mx /\ mx <> 0 /\ In k scales
                  /\ py_min (map (fun v => v * k) vals) = Some mn'
                  /\ py_max (map (fun v => v * k) vals) = Some mx'
                  /\ c = mk_candidate off k (0 # 1) mn' mx').
    { unfold cands_at. destruct (unpack_u16s data n off) as [vals|] eqn:Eu.
      - apply unpack_u16s_length in Eu as Hl.
        destruct vals as [|x r]; [simpl in Hl; lia|].
        simpl obind. destruct (Z.eqb_spec (fold_left Z.max r x) 0) as [E0|E0].
        + exists []; split; [reflexivity|]. intros c; split; [contradiction|].
          intros (vals & mx & k & mn' & mx' & Hv & Hm & Hmx & _).
          injection Hv as <-. simpl in Hm. congruence.
        + destruct (scan_scales_nil_truth (x :: r) off scales ltac:(discriminate))
            as [cs [Hcs Hin']].
          exists cs; split; [exact Hcs|]. intros c; split.
          * intros Hc. apply Hin' in Hc as (k & mn & mx & Hk & H1 & H2 & ->).
            exists (x :: r), (fold_left Z.max r x), k, mn, mx. auto 10.
          * intros (vals & mx & k & mn' & mx' & Hv & Hm & Hmx & Hk & H1 & H2 & ->).
            injection Hv as <-. apply Hin'. exists k, mn', mx'. auto.
      - exists []; split; [reflexivity|]. intros c; split; [contradiction|].
        intros (vals & _ & _ & _ & _ & Hv & _). discriminate. }
    destruct Hc as [cs [Hcs Hin']].
    exists (cs ++ rest); split.
    + simpl scan_offsets. rewrite Hcs, Hrest. reflexivity.
    + intros c; rewrite in_app_iff; split.
      * intros [Hc|Hc].
        -- apply Hin' in Hc as (vals & mx & k & mn' & mx' & H).
           exists off, vals, mx, k, mn', mx'. split; [left; reflexivity|exact H].
        -- apply Hin in Hc as (off' & vals & mx & k & mn' & mx' & Ho & H).
           exists off', vals, mx, k, mn', mx'. split; [right; exact Ho|exact H].
      * intros (off' & vals & mx & k & mn' & mx' & [<-|Ho] & H).
        -- left. apply Hin'. exists vals, mx, k, mn', mx'. exact H.
        -- right. apply Hin. exists off', vals, mx, k, mn', mx'. auto.
Qed.

(** Sorting candidates that all carry the same error keeps their order. *)
Lemma sort_by_mae_const q l :
  (forall c, In c l -> mae c = q) -> sort_by_mae l = l.
Proof.
  intros Hq. unfold sort_by_mae.
  assert (Hins : forall c acc, mae c = q -> (forall d, In d acc -> mae d = q) ->
                 insert_by_mae c acc = acc ++ [c]).
  { intros c acc Hc; induction acc as [|d acc IH]; intros Hacc; [reflexivity|].
    simpl. rewrite (Hacc d (or_introl eq_refl)), Hc.
    replace (Qle_bool q q) with true by (symmetry; apply Qle_bool_iff, Qle_refl).
    f_equal. apply IH. intros e He. apply Hacc. right. exact He. }
  assert (H : forall l acc, (forall c, In c l -> mae c = q) ->
              (forall d, In d acc -> mae d = q) ->
              fold_left (fun acc c => insert_by_mae c acc) l acc = acc ++ l).
  { induction l0 as [|c l0 IH]; intros acc Hl Hacc; simpl.
    - symmetry. apply app_nil_r.
    - rewrite Hins; [rewrite IH| apply Hl; left; reflexivity | exact Hacc].
      + rewrite <- app_assoc. reflexivity.
      + intros d Hd. apply Hl. right. exact Hd.
      + intros d Hd. apply in_app_iff in Hd as [Hd|[<-|[]]]; auto.
        apply Hl. left. reflexivity. }
  apply H; [exact Hq | contradiction].
Qed.

(** ** C10 (amended)

    Claim C10.  For tables of [n >= 1] entries and a non-zero [step], an
    empty anchor map makes the solver return normally; its output is the
    list of candidates in scan order (all tied at error 0, so the stable
    sort keeps them in place), and holds exactly one candidate with error
    [0] for each in-range offset whose table unpacks and has a non-zero
    maximum, and each scale. *)
Theorem solve_u16_scaled_tables_empty_truth data n scales search_start search_end step :
  1 <= n -> step <> 0 ->
  let se := match search_end with Some e => e | None => py_len data end in
  exists offs out,
    py_range search_start (Z.min se (py_len data - 2 * n)) step = Some offs
    /\ scan_offsets data n [] scales offs = Some out
    /\ solve_u16_scaled_tables data n [] scales search_start search_end step = Some out
    /\ (forall c, In c out -> mae c = 0 # 1)
    /\ (forall c, In c out <->
         exists off vals mx k mn' mx', In off offs /\ unpack_u16s data n off = Some vals
           /\ py_max vals = Some mx /\ mx <> 0 /\ In k scales
           /\ py_min (map (fun v => v * k) vals) = Some mn'
           /\ py_max (map (fun v => v * k) vals) = Some mx'
           /\ c = mk_candidate off k (0 # 1) mn' mx').
Proof.
  intros Hn Hs se.
  destruct (py_range search_start (Z.min se (py_len data - 2 * n)) step) as [offs|] eqn:Er.
  2:{ unfold py_range in Er. destruct (Z.eqb_spec step 0); [lia|discriminate]. }
  destruct (scan_offsets_nil_truth data n scales offs Hn) as [out [Hout Hin]].
  assert (Hmae : forall c, In c out -> mae c = 0 # 1).
  { intros c Hc. apply Hin in Hc as (off & vals & mx & k & mn & mx2 & _ & _ & _ & _ & _ & _ & _ & ->).
    reflexivity. }
  exists offs, out. repeat split; auto; try (apply Hin; assumption).
  unfold solve_u16_scaled_tables. fold se. rewrite Er. simpl obind.
  rewrite Hout. simpl obind. f_equal. apply (sort_by_mae_const (0 # 1)). exact Hmae.
Qed.

(** C10: a table of [n = 0] entries unpacks to [()], whose [max] raises
    [ValueError] outside the [try]; a [step] of 0 makes [range] raise. *)
Lemma solve_u16_scaled_tables_empty_truth_counterexample :
  solve_u16_scaled_tables [0; 0; 0] 0 [] [1] 0 None 1 = None
  /\ solve_u16_scaled_tables [1; 0; 0; 0] 1 [] [1] 0 None 0 = None.
Proof. split; reflexivity. Qed.

Lemma solve_u16_scaled_tables_empty_truth_witness :
  exists offs out,
    py_range 0 (Z.min 6 (6 - 2 * 1)) 1 = Some offs
    /\ scan_offsets [1; 0; 0; 0; 7; 0] 1 [] [1; 2] offs = Some out
    /\ solve_u16_scaled_tables [1; 0; 0; 0; 7; 0] 1 [] [1; 2] 0 None 1 = Some out
    /\ (forall c, In c out -> mae c = 0 # 1)
    /\ (forall c, In c out <->
         exists off vals mx k mn' mx', In off offs
           /\ unpack_u16s [1; 0; 0; 0; 7; 0] 1 off = Some vals
           /\ py_max vals = Some mx /\ mx <> 0 /\ In k [1; 2]
           /\ py_min (map (fun v => v * k) vals) = Some mn'
           /\ py_max (map (fun v => v * k) vals) = Some mx'
           /\ c = mk_candidate off k (0 # 1) mn' mx').
Proof.
  exact (solve_u16_scaled_tables_empty_truth [1; 0; 0; 0; 7; 0] 1 [1; 2] 0 None 1
           ltac:(lia) ltac:(discriminate)).
Defined.

(** * Further properties of the extractor *)

(** ** Segmenters keep every name character *)

Section SegmenterConcat.

Variables isalpha isupper islower : Z -> bool.

Lemma concat_flush cur toks : concat (flush cur toks) = concat toks ++ cur.
Proof.
  unfold flush. destruct cur as [|c cur]; simpl.
  - symmetry. apply app_nil_r.
  - rewrite concat_app. simpl. rewrite app_nil_r. reflexivity.
Qed.

Lemma concat_tm_boundary s : forall cur toks,
  concat (tm_boundary isalpha isupper islower s cur toks)
  = concat toks ++ cur ++ filter (fun c => negb (c =? 32) && token_char isalpha c) s.
Proof.
  induction s as [|ch s IH]; intros cur toks; simpl.
  - rewrite concat_flush, app_nil_r. reflexivity.
  - unfold token_char.
    destruct (ch =? 32) eqn:E32; simpl.
    + rewrite IH, concat_flush, <- app_assoc. reflexivity.
    + destruct (isalpha ch || (ch =? 39) || (ch =? 45)) eqn:Ech; simpl.
      * destruct (negb (is_nil cur) && isupper ch && islower (last cur 0)).
        -- rewrite IH, concat_flush, <- !app_assoc. reflexivity.
        -- rewrite IH, <- !app_assoc. reflexivity.
      * rewrite IH, concat_flush, <- app_assoc. reflexivity.
Qed.

Lemma concat_merge_prefix pre toks : concat (merge_prefix pre toks) = concat toks.
Proof.
  revert toks; fix IH 1; intros [|t rest]; simpl; [reflexivity|].
  destruct (str_eqb t pre) eqn:E.
  - apply str_eqb_eq in E; subst.
    destruct rest as [|u rest']; simpl; [reflexivity|].
    rewrite IH, app_assoc. reflexivity.
  - simpl. rewrite IH. reflexivity.
Qed.

Lemma scn_loop_concat rest : forall prev cur parts,
  cur <> [] -> Forall (fun t => t <> []) parts ->
  concat (scn_loop isupper islower prev rest cur parts) = concat parts ++ cur ++ rest
  /\ Forall (fun t => t <> []) (scn_loop isupper islower prev rest cur parts).
Proof.
  induction rest as [|ch rest IH]; intros prev cur parts Hc Hp; simpl.
  - rewrite concat_app. simpl. rewrite !app_nil_r. split; [reflexivity|].
    apply Forall_app; auto.
  - assert (Hc' : cur ++ [ch] <> []) by (intros H; apply app_eq_nil in H as [_ H]; discriminate).
    destruct (isupper ch && islower prev);
      [destruct (ends_with cur Mac || ends_with cur Mc)|].
    + destruct (IH ch (cur ++ [ch]) parts Hc' Hp) as [-> H]. rewrite <- !app_assoc. auto.
    + destruct (IH ch [ch] (parts ++ [cur]) ltac:(discriminate)
                   ltac:(apply Forall_app; auto)) as [H1 H2].
      split; [|exact H2]. refine (eq_trans H1 _).
      rewrite concat_app. simpl. rewrite app_nil_r, <- !app_assoc. reflexivity.
    + destruct (IH ch (cur ++ [ch]) parts Hc' Hp) as [-> H]. rewrite <- !app_assoc. auto.
Qed.

Lemma merge_mc_upper_concat parts :
  Forall (fun t => t <> []) parts ->
  concat (merge_mc_upper isupper parts) = concat parts
  /\ Forall (fun t => t <> []) (merge_mc_upper isupper parts).
Proof.
  remember (length parts) as m eqn:Hm. revert parts Hm.
  induction m as [m IH] using (well_founded_induction lt_wf).
  intros [|t rest] Hm H; [split; [reflexivity|constructor]|].
  inversion H as [|? ? Ht Hrest]; subst.
  destruct rest as [|u rest'].
  - simpl. auto.
  - inversion Hrest as [|? ? Hu Hrest']; subst.
    assert (Eq : merge_mc_upper isupper (t :: u :: rest') =
                 if str_eqb t Mc && first_isupper isupper u
                 then (Mc ++ u) :: merge_mc_upper isupper rest'
                 else t :: merge_mc_upper isupper (u :: rest')) by reflexivity.
    rewrite Eq.
    destruct (str_eqb t Mc && first_isupper isupper u) eqn:E.
    + apply andb_prop in E as [E _]. apply str_eqb_eq in E; subst.
      destruct (IH (length rest') ltac:(simpl; lia) rest' eq_refl Hrest') as [H1 H2].
      cbn [concat]. rewrite H1, <- app_assoc.
      split; [reflexivity|]. constructor; [discriminate|exact H2].
    + destruct (IH (length (u :: rest')) ltac:(simpl; lia) (u :: rest') eq_refl Hrest)
        as [H1 H2].
      cbn [concat]. rewrite H1.
      split; [reflexivity|]. constructor; auto.
Qed.

Lemma split_concatenated_names_pieces blob :
  concat (split_concatenated_names isupper islower blob) = blob
  /\ Forall (fun t => t <> []) (split_concatenated_names isupper islower blob).
Proof.
  destruct blob as [|c r]; [split; [reflexivity|constructor]|].
  unfold split_concatenated_names, split_boundary.
  destruct (scn_loop_concat r c [c] [] ltac:(discriminate) (Forall_nil _)) as [H1 H2].
  destruct (merge_mc_upper_concat _ H2) as [H3 H4].
  split; [exact (eq_trans H3 H1)|exact H4].
Qed.

(** ** X1

    [split_concatenated_names] only cuts its input: the pieces are
    non-empty and concatenate back to the blob. *)
Theorem split_concatenated_names_concat blob :
  concat (split_concatenated_names isupper islower blob) = blob
  /\ Forall (fun t => t <> []) (split_concatenated_names isupper islower blob).
Proof. exact (split_concatenated_names_pieces blob). Qed.

(** ** X2

    [tokenize_mixed] drops exactly the spaces and the characters that are
    not letters, apostrophes or hyphens: its tokens concatenate to the
    input with those characters removed. *)
Theorem tokenize_mixed_concat s :
  concat (tokenize_mixed isalpha isupper islower s)
  = filter (fun c => negb (c =? 32) && (isalpha c || (c =? 39) || (c =? 45))) s.
Proof.
  unfold tokenize_mixed. rewrite !concat_merge_prefix, concat_tm_boundary.
  reflexivity.
Qed.

End SegmenterConcat.

(** ** The solvers' ranking *)

Section Ranking.

Local Open Scope Q_scope.

Lemma insert_by_mae_perm c l : Permutation (insert_by_mae c l) (c :: l).
Proof.
  induction l as [|d l IH]; simpl; [auto|].
  destruct (Qle_bool (mae d) (mae c)); [|auto].
  eapply perm_trans; [apply perm_skip, IH|apply perm_swap].
Qed.

Lemma insert_by_mae_hd x c l :
  HdRel mae_le x l -> mae_le x c -> HdRel mae_le x (insert_by_mae c l).
Proof.
  destruct l as [|d l]; simpl; intros H Hc; [auto|].
  destruct (Qle_bool (mae d) (mae c)); constructor; [inversion H; auto|auto].
Qed.

Lemma insert_by_mae_sorted c l :
  Sorted mae_le l -> Sorted mae_le (insert_by_mae c l).
Proof.
  induction l as [|d l IH]; simpl; intros H; [auto|].
  apply Sorted_inv in H as [Hl Hd].
  destruct (Qle_bool (mae d) (mae c)) eqn:E.
  - apply Qle_bool_iff in E. constructor; [auto|]. apply insert_by_mae_hd; auto.
  - constructor; [constructor; auto|]. constructor.
    apply Qlt_le_weak, Qnot_le_lt. intros H. apply Qle_bool_iff in H. congruence.
Qed.

Lemma sort_by_mae_sorted_perm l :
  Sorted mae_le (sort_by_mae l) /\ Permutation (sort_by_mae l) l.
Proof.
  unfold sort_by_mae.
  assert (H : forall l acc, Sorted mae_le acc ->
              Sorted mae_le (fold_left (fun acc c => insert_by_mae c acc) l acc)
              /\ Permutation (fold_left (fun acc c => insert_by_mae c acc) l acc) (acc ++ l)).
  { induction l0 as [|c l0 IH]; intros acc Hacc; simpl.
    - rewrite app_nil_r. auto.
    - destruct (IH (insert_by_mae c acc) (insert_by_mae_sorted c acc Hacc)) as [H1 H2].
      split; [exact H1|].
      eapply perm_trans; [exact H2|].
      eapply perm_trans; [apply Permutation_app_tail, insert_by_mae_perm|].
      simpl. apply Permutation_middle. }
  exact (H l [] (Sorted_nil _)).
Qed.

End Ranking.

Lemma in_py_range_bound a b s xs x :
  0 < s -> py_range a b s = Some xs -> In x xs -> a <= x < b.
Proof.
  intros Hs. unfold py_range.
  replace (s =? 0) with false by (symmetry; apply Z.eqb_neq; lia).
  replace (0 <? s) with true by (symmetry; apply Z.ltb_lt; lia).
  intros H; injection H as <-. intros Hin.
  apply in_map_iff in Hin as [k [<- Hk]]. apply in_seq in Hk.
  assert (Hk' : Z.of_nat k + 1 <= (b - a + s - 1) / s) by lia.
  pose proof (Z.mul_div_le (b - a + s - 1) s Hs).
  nia.
Qed.

Lemma scan_offsets_in data n truth scales offs out c :
  scan_offsets data n truth scales offs = Some out -> In c out ->
  exists off cs, In off offs /\ cands_at data n truth scales off = Some cs /\ In c cs.
Proof.
  revert out; induction offs as [|off offs IH]; intros out H Hc; cbn [scan_offsets] in H.
  - injection H as <-. contradiction.
  - destruct (cands_at data n truth scales off) as [cs|] eqn:E; [|discriminate].
    simpl obind in H. destruct (scan_offsets data n truth scales offs) as [rest|] eqn:Er;
      [|discriminate]. simpl obind in H.
    injection H as <-. apply in_app_iff in Hc as [Hc|Hc].
    + exists off, cs. split; [left; reflexivity|split; [exact E|exact Hc]].
    + destruct (IH rest eq_refl Hc) as (off' & cs' & H1 & H2 & H3).
      exists off', cs'. split; [right; exact H1|split; [exact H2|exact H3]].
Qed.

Lemma scan_scales_in vals truth off ks cs c :
  scan_scales vals truth off ks = Some cs -> In c cs ->
  In (scale c) ks /\ offset c = off
  /\ kind c = ("u16_x" ++ NilEmpty.string_of_int (Z.to_int (scale c)))%string
  /\ mean_abs_error (map (fun v => v * scale c) vals) truth = Some (mae c)
  /\ py_min (map (fun v => v * scale c) vals) = Some (cmin c)
  /\ py_max (map (fun v => v * scale c) vals) = Some (cmax c).
Proof.
  revert cs; induction ks as [|k ks IH]; intros cs H Hc; cbn [scan_scales] in H.
  - injection H as <-. contradiction.
  - destruct (mean_abs_error (map (fun v => v * k) vals) truth) as [e|] eqn:Ee;
      [|discriminate]. simpl obind in H.
    destruct (py_min (map (fun v => v * k) vals)) as [mn|] eqn:Emn; [|discriminate].
    simpl obind in H.
    destruct (py_max (map (fun v => v * k) vals)) as [mx|] eqn:Emx; [|discriminate].
    simpl obind in H.
    destruct (scan_scales vals truth off ks) as [rest|] eqn:Er; [|discriminate].
    simpl obind in H. injection H as <-.
    destruct Hc as [<-|Hc].
    + simpl. repeat split; auto.
    + destruct (IH rest eq_refl Hc) as (H1 & H2). split; [right; exact H1|exact H2].
Qed.

(** ** X3

    Both solvers return their candidates sorted by non-decreasing mean
    absolute error, as a reordering of all the candidates their scan
    recorded. *)
Theorem solvers_output_sorted_permutation data n truth scales search_start search_end step :
  (forall out,
     solve_u16_scaled_tables data n truth scales search_start search_end step = Some out ->
     Sorted (fun a b => (mae a <= mae b)%Q) out
     /\ exists offs scan,
          py_range search_start
            (Z.min (match search_end with Some e => e | None => py_len data end)
                   (py_len data - 2 * n)) step = Some offs
          /\ scan_offsets data n truth scales offs = Some scan
          /\ Permutation out scan)
  /\ (forall out,
     solve_u32_tables data n truth search_start search_end step = Some out ->
     Sorted (fun a b => (mae a <= mae b)%Q) out
     /\ exists offs scan,
          py_range search_start
            (Z.min (match search_end with Some e => e | None => py_len data end)
                   (py_len data - 4 * n)) step = Some offs
          /\ scan_offsets32 data n truth offs = Some scan
          /\ Permutation out scan).
Proof.
  split; intros out H.
  - unfold solve_u16_scaled_tables in H.
    destruct (py_range _ _ step) as [offs|] eqn:Er; [|discriminate]. simpl obind in H.
    destruct (scan_offsets data n truth scales offs) as [scan|] eqn:Es; [|discriminate].
    simpl obind in H. injection H as <-.
    destruct (sort_by_mae_sorted_perm scan) as [H1 H2].
    split; [exact H1|]. exists offs, scan. auto.
  - unfold solve_u32_tables in H.
    destruct (py_range _ _ step) as [offs|] eqn:Er; [|discriminate]. simpl obind in H.
    destruct (scan_offsets32 data n truth offs) as [scan|] eqn:Es; [|discriminate].
    simpl obind in H. injection H as <-.
    destruct (sort_by_mae_sorted_perm scan) as [H1 H2].
    split; [exact H1|]. exists offs, scan. auto.
Qed.

(** ** X4

    Every candidate of [solve_u16_scaled_tables] comes from an offset of
    the search window ([search_start + j * step], below
    [min(search_end, len(data) - 2n)] for a positive step) whose table of
    [n] values unpacks and has a non-zero maximum, and from a scale of
    [scales]; its kind is ["u16_x<scale>"], and its error, minimum and
    maximum are those of the scaled table. *)
Theorem solve_u16_scaled_tables_candidates data n truth scales search_start search_end step
    out c :
  solve_u16_scaled_tables data n truth scales search_start search_end step = Some out ->
  In c out ->
  (exists j, 0 <= j /\ offset c = search_start + j * step)
  /\ (0 < step -> search_start <= offset c
       < Z.min (match search_end with Some e => e | None => py_len data end)
               (py_len data - 2 * n))
  /\ In (scale c) scales
  /\ kind c = ("u16_x" ++ NilEmpty.string_of_int (Z.to_int (scale c)))%string
  /\ exists vals mx,
       unpack_u16s data n (offset c) = Some vals /\ py_max vals = Some mx /\ mx <> 0
       /\ mean_abs_error (map (fun v => v * scale c) vals) truth = Some (mae c)
       /\ py_min (map (fun v => v * scale c) vals) = Some (cmin c)
       /\ py_max (map (fun v => v * scale c) vals) = Some (cmax c).
Proof.
  intros H Hc. unfold solve_u16_scaled_tables in H.
  destruct (py_range _ _ step) as [offs|] eqn:Er; [|discriminate]. simpl obind in H.
  destruct (scan_offsets data n truth scales offs) as [scan|] eqn:Es; [|discriminate].
  simpl obind in H. injection H as <-.
  apply (Permutation_in _ (proj2 (sort_by_mae_sorted_perm scan))) in Hc.
  destruct (scan_offsets_in _ _ _ _ _ _ _ Es Hc) as (off & cs & Hoff & Hcs & Hin).
  unfold cands_at in Hcs.
  destruct (unpack_u16s data n off) as [vals|] eqn:Eu; [|injection Hcs as <-; contradiction].
  destruct (py_max vals) as [mx|] eqn:Emx; [|discriminate]. simpl obind in Hcs.
  destruct (Z.eqb_spec mx 0) as [E0|E0]; [injection Hcs as <-; contradiction|].
  destruct (scan_scales_in _ _ _ _ _ _ Hcs Hin) as (Hk & Ho & Hkind & Hm & Hmn & Hmx).
  rewrite Ho. split; [eapply in_py_range; eauto|].
  split; [intros Hs; eapply in_py_range_bound; eauto|].
  split; [exact Hk|]. split; [exact Hkind|].
  exists vals, mx. auto 7.
Qed.

(** ** C3 (code bug)

    Claim C3.  [solve_u16_scaled_tables] scans [range(search_start, end,
    step)] with [end = min(search_end, len(data) - 2n)], so for a positive
    step every candidate it returns has [offset + 2n < len(data)]: a table
    that ends exactly at the end of the buffer is never scanned.  A buffer
    holding only an exact 64-entry table [1, 2, ..., 64], with the anchors
    [{0: 1, 5: 6}] it fits at scale 1, gives no candidate at all; one byte
    more and the table at offset 0 is returned. *)
Theorem solve_u16_scaled_tables_skips_last_offset :
  (forall data n truth scales search_start search_end step out c,
     0 < step ->
     solve_u16_scaled_tables data n truth scales search_start search_end step = Some out ->
     In c out -> offset c + 2 * n < py_len data)
  /\ (let table := map Z.of_nat (seq 1 64) in
      let data := concat (map (fun v => [v; 0]) table) in
      py_len data = 2 * 64
      /\ unpack_u16s data 64 0 = Some table
      /\ py_index table 0 = Some 1 /\ py_index table 5 = Some 6
      /\ solve_u16_scaled_tables data 64 [(0, 1); (5, 6)] [1] 0 None 1 = Some []
      /\ option_map (map (fun c => (offset c, scale c, Qeq_bool (mae c) 0)))
           (solve_u16_scaled_tables (data ++ [0]) 64 [(0, 1); (5, 6)] [1] 0 None 1)
         = Some [(0, 1, true)]).
Proof.
  split.
  - intros data n truth scales search_start search_end step out c Hs H Hc.
    unfold solve_u16_scaled_tables in H.
    destruct (py_range _ _ step) as [offs|] eqn:Er; [|discriminate]. simpl obind in H.
    destruct (scan_offsets data n truth scales offs) as [scan|] eqn:Es; [|discriminate].
    simpl obind in H. injection H as <-.
    apply (Permutation_in _ (proj2 (sort_by_mae_sorted_perm scan))) in Hc.
    destruct (scan_offsets_in _ _ _ _ _ _ _ Es Hc) as (off & cs & Hoff & Hcs & Hin).
    unfold cands_at in Hcs.
    destruct (unpack_u16s data n off) as [vals|];
      [|injection Hcs as <-; contradiction].
    destruct (py_max vals) as [mx|]; [|discriminate]. simpl obind in Hcs.
    destruct (mx =? 0); [injection Hcs as <-; contradiction|].
    destruct (scan_scales_in _ _ _ _ _ _ Hcs Hin) as (_ & Ho & _).
    rewrite Ho. pose proof (in_py_range_bound _ _ _ _ _ Hs Er Hoff). lia.
  - vm_compute. repeat split.
Qed.

Lemma scan_offsets32_in data n truth offs out c :
  scan_offsets32 data n truth offs = Some out -> In c out ->
  exists off cs, In off offs /\ cands32_at data n truth off = Some cs /\ In c cs.
Proof.
  revert out; induction offs as [|off offs IH]; intros out H Hc; cbn [scan_offsets32] in H.
  - injection H as <-. contradiction.
  - destruct (cands32_at data n truth off) as [cs|] eqn:E; [|discriminate].
    simpl obind in H. destruct (scan_offsets32 data n truth offs) as [rest|] eqn:Er;
      [|discriminate]. simpl obind in H.
    injection H as <-. apply in_app_iff in Hc as [Hc|Hc].
    + exists off, cs. split; [left; reflexivity|split; [exact E|exact Hc]].
    + destruct (IH rest eq_refl Hc) as (off' & cs' & H1 & H2 & H3).
      exists off', cs'. split; [right; exact H1|split; [exact H2|exact H3]].
Qed.

(** ** X5

    Every candidate of [solve_u32_tables] has kind ["u32"] and scale 1,
    comes from an offset of the search window whose table of [n] uint32
    values unpacks with a maximum of at least 1000, and carries that
    table's error, minimum and maximum. *)
Theorem solve_u32_tables_candidates data n truth search_start search_end step out c :
  solve_u32_tables data n truth search_start search_end step = Some out ->
  In c out ->
  kind c = "u32"%string /\ scale c = 1
  /\ (exists j, 0 <= j /\ offset c = search_start + j * step)
  /\ (0 < step -> search_start <= offset c
       < Z.min (match search_end with Some e => e | None => py_len data end)
               (py_len data - 4 * n))
  /\ 1000 <= cmax c
  /\ exists vals,
       unpack_u32s data n (offset c) = Some vals /\ py_max vals = Some (cmax c)
       /\ py_min vals = Some (cmin c) /\ mean_abs_error vals truth = Some (mae c).
Proof.
  intros H Hc. unfold solve_u32_tables in H.
  destruct (py_range _ _ step) as [offs|] eqn:Er; [|discriminate]. simpl obind in H.
  destruct (scan_offsets32 data n truth offs) as [scan|] eqn:Es; [|discriminate].
  simpl obind in H. injection H as <-.
  apply (Permutation_in _ (proj2 (sort_by_mae_sorted_perm scan))) in Hc.
  destruct (scan_offsets32_in _ _ _ _ _ _ Es Hc) as (off & cs & Hoff & Hcs & Hin).
  unfold cands32_at in Hcs.
  destruct (unpack_u32s data n off) as [vals|] eqn:Eu; [|injection Hcs as <-; contradiction].
  destruct (py_max vals) as [mx|] eqn:Emx; [|discriminate]. simpl obind in Hcs.
  destruct (Z.ltb_spec mx 1000) as [E0|E0]; [injection Hcs as <-; contradiction|].
  destruct (mean_abs_error vals truth) as [e|] eqn:Ee; [|discriminate]. simpl obind in Hcs.
  destruct (py_min vals) as [mn|] eqn:Emn; [|discriminate]. simpl obind in Hcs.
  injection Hcs as <-. destruct Hin as [<-|[]]. simpl.
  split; [reflexivity|]. split; [reflexivity|].
  split; [eapply in_py_range; eauto|].
  split; [intros Hs; eapply in_py_range_bound; eauto|].
  split; [exact E0|]. exists vals. auto.
Qed.

(** ** X6

    [_mean_abs_error(pred, truth)] raises when some anchor index is out of
    range for [pred] (Python indexing, negative indices counting from the
    end).  When it returns, its value is non-negative, and it is 0 exactly
    when [pred] equals every anchor value at its index.  Python sums the
    integer differences into a float, which may also raise [OverflowError]
    on a difference of at least [2^1024] and rounds large sums; neither
    changes the sign of a sum of non-negative terms, each 0 or at least 1,
    so the value the function returns is 0 exactly when the exact sum
    here is. *)
Theorem mean_abs_error_spec pred truth :
  ((exists idx val, In (idx, val) truth /\ py_index pred idx = None) ->
   mean_abs_error pred truth = None)
  /\ (forall e, mean_abs_error pred truth = Some e ->
      (0 <= e)%Q
      /\ ((e == 0)%Q <-> forall idx val, In (idx, val) truth -> py_index pred idx = Some val)).
Proof.
  assert (Hsum : forall truth,
            (abs_err_sum pred truth = None <->
             exists idx val, In (idx, val) truth /\ py_index pred idx = None)
            /\ (forall s, abs_err_sum pred truth = Some s ->
                0 <= s /\ (s = 0 <-> forall idx val, In (idx, val) truth ->
                                          py_index pred idx = Some val))).
  { induction truth0 as [|[idx val] t [IH1 IH2]]; simpl.
    - split; [split; [discriminate|intros (? & ? & [] & _)]|].
      intros s H; injection H as <-. split; [lia|]. split; [intros _ ? ? []|reflexivity].
    - split.
      + destruct (py_index pred idx) as [p|] eqn:Ep; simpl.
        * destruct (abs_err_sum pred t) as [s|] eqn:Es; simpl.
          -- split; [discriminate|]. intros (i & v & [Heq|Hin] & Hn).
             ++ injection Heq as <- <-. congruence.
             ++ assert (Hx : Some s = None) by (apply IH1; eauto). discriminate.
          -- split; [|reflexivity]. intros _.
             destruct (proj1 IH1 eq_refl) as (i & v & Hin & Hn). exists i, v. auto.
        * split; [intros _; exists idx, val; auto|reflexivity].
      + intros s H.
        destruct (py_index pred idx) as [p|] eqn:Ep; [|discriminate]. simpl in H.
        destruct (abs_err_sum pred t) as [s'|] eqn:Es; [|discriminate]. simpl in H.
        injection H as <-. destruct (IH2 s' eq_refl) as [Hs' Hiff].
        split; [lia|]. split.
        * intros H0 i v [Heq|Hin].
          -- injection Heq as <- <-. rewrite Ep. f_equal. lia.
          -- apply Hiff; [lia|exact Hin].
        * intros Hall. assert (Hp : Some p = Some val) by (rewrite <- Ep; apply Hall; left; reflexivity).
          injection Hp as ->. rewrite (proj2 Hiff) by (intros i v Hi; apply Hall; right; exact Hi).
          lia. }
  destruct (Hsum truth) as [H1 H2]. unfold mean_abs_error.
  split.
  - intros Hx. apply H1 in Hx. rewrite Hx. reflexivity.
  - intros e H. destruct (abs_err_sum pred truth) as [s|] eqn:Es; [|discriminate].
    simpl in H. injection H as <-. destruct (H2 s eq_refl) as [Hs Hiff].
    split; [unfold Qle; simpl; lia|].
    rewrite <- Hiff. unfold Qeq; simpl. lia.
Qed.

(** ** Slot-16 token extraction *)

Lemma py_slice_slice {A} (l : list A) a b c d :
  0 <= a -> a <= b -> b <= py_len l -> 0 <= c -> c <= d -> d <= b - a ->
  py_slice (py_slice l a b) c d = py_slice l (a + c) (a + d).
Proof.
  intros H1 H2 H3 H4 H5 H6.
  rewrite (py_slice_nat (py_slice l a b)) by (try rewrite length_py_slice; lia).
  rewrite !py_slice_nat by lia.
  rewrite skipn_firstn_comm, firstn_firstn, skipn_skipn.
  f_equal; [lia|f_equal; lia].
Qed.

Lemma py_index_slice_first (data : pybytes) a b :
  0 <= a -> a < b -> b <= py_len data ->
  py_index (py_slice data a b) 0 = Some (byte_at data a).
Proof.
  intros H1 H2 H3. unfold py_index. rewrite length_py_slice by lia.
  replace ((0 <=? 0) && (0 <? b - a)) with true by (symmetry; apply andb_true_iff; split; [apply Z.leb_le|apply Z.ltb_lt]; lia).
  assert (Hl : (Z.to_nat 0 < length (py_slice data a b))%nat).
  { pose proof (length_py_slice data a b ltac:(lia) H3) as E. unfold py_len in E. lia. }
  rewrite (nth_error_nth' _ 0 Hl). f_equal.
  rewrite py_slice_nat by lia. rewrite nth_firstn.
  replace (Z.to_nat 0 <? Z.to_nat (b - a))%nat with true by (symmetry; apply Nat.ltb_lt; lia).
  rewrite nth_skipn. unfold byte_at. f_equal. lia.
Qed.

Lemma concat_opt_map_some {A B} (f : A -> option (list B)) xs :
  (forall x, In x xs -> f x <> None) -> exists out, concat_opt (map f xs) = Some out.
Proof.
  induction xs as [|x xs IH]; intros H; simpl; [eauto|].
  destruct (f x) as [a|] eqn:E; [|exfalso; apply (H x); [left; reflexivity|exact E]].
  destruct IH as [b Hb]; [intros y Hy; apply H; right; exact Hy|].
  rewrite Hb. eauto.
Qed.

Lemma concat_opt_map_in {A B} (f : A -> option (list B)) xs out t :
  concat_opt (map f xs) = Some out -> In t out ->
  exists x r, In x xs /\ f x = Some r /\ In t r.
Proof.
  revert out; induction xs as [|x xs IH]; intros out H Ht; simpl in H.
  - injection H as <-. contradiction.
  - destruct (f x) as [a|] eqn:E; [|discriminate].
    destruct (concat_opt (map f xs)) as [b|] eqn:Eb; [|discriminate].
    injection H as <-. apply in_app_iff in Ht as [Ht|Ht].
    + exists x, a. split; [left; reflexivity|split; [exact E|exact Ht]].
    + destruct (IH b eq_refl Ht) as (y & r & H1 & H2 & H3).
      exists y, r. split; [right; exact H1|split; [exact H2|exact H3]].
Qed.

(** ** X7

    [extract_slot16_tokens(data, start, recsize)] raises when [recsize] is
    0.  For [start >= 0] and [recsize > 0] it never raises, and every token
    it yields has source ["slot16"] and lies at an offset
    [start + k * recsize] whose whole record fits in [data]; the record's
    length byte [L] is between 1 and [recsize - 1], the token's value is
    the stripped CP437 decoding of the [L] bytes after it, and that value
    is a plausible token. *)
Theorem extract_slot16_tokens_spec data start recsize :
  (recsize = 0 -> extract_slot16_tokens data start recsize = None)
  /\ (0 <= start -> 0 < recsize ->
      exists toks, extract_slot16_tokens data start recsize = Some toks
      /\ forall t, In t toks ->
           Tok.source t = "slot16"%string
           /\ (exists k, 0 <= k /\ Tok.offset t = start + k * recsize)
           /\ Tok.offset t + recsize <= py_len data
           /\ 1 <= byte_at data (Tok.offset t) <= recsize - 1
           /\ Tok.value t = py_strip (decode_cp437
                 (py_slice data (Tok.offset t + 1)
                    (Tok.offset t + 1 + byte_at data (Tok.offset t))))
           /\ is_plausible_token (Tok.value t) = true).
Proof.
  split.
  - intros ->. reflexivity.
  - intros Hs Hr. unfold extract_slot16_tokens.
    destruct (py_range start (py_len data - recsize + 1) recsize) as [offs|] eqn:Er.
    2:{ unfold py_range in Er. destruct (Z.eqb_spec recsize 0); [lia|discriminate]. }
    assert (Hoff : forall off, In off offs ->
              0 <= off /\ off + recsize <= py_len data
              /\ py_index (py_slice data off (off + recsize)) 0 = Some (byte_at data off)).
    { intros off Hin. pose proof (in_py_range_bound _ _ _ _ _ Hr Er Hin).
      split; [lia|split; [lia|]]. apply py_index_slice_first; lia. }
    destruct (concat_opt_map_some (slot16_token_at data recsize) offs) as [toks Ht].
    { intros off Hin. destruct (Hoff off Hin) as (_ & _ & Hi).
      unfold slot16_token_at. rewrite Hi.
      destruct (negb _); [discriminate|].
      destruct (is_plausible_token _); discriminate. }
    exists toks. split; [exact Ht|]. intros t Hin.
    destruct (concat_opt_map_in _ _ _ _ Ht Hin) as (off & r & Hoffin & Hf & Htr).
    destruct (Hoff off Hoffin) as (H0 & Hfit & Hi).
    unfold slot16_token_at in Hf. rewrite Hi in Hf.
    destruct ((1 <=? byte_at data off) && (byte_at data off <=? recsize - 1)) eqn:EL;
      cbn [negb] in Hf; [|injection Hf as <-; contradiction].
    apply andb_true_iff in EL as [EL1 EL2]. apply Z.leb_le in EL1, EL2.
    destruct (is_plausible_token _) eqn:Ep; [|injection Hf as <-; contradiction].
    rewrite py_slice_slice in Ep by lia.
    apply (f_equal (fun o => match o with Some x => x | None => [] end)) in Hf.
    cbn beta iota in Hf. subst r.
    destruct Htr as [<-|[]]. cbn [Tok.source Tok.offset Tok.value].
    rewrite py_slice_slice by lia.
    replace (off + (1 + byte_at data off)) with (off + 1 + byte_at data off) in Ep |- * by lia.
    split; [reflexivity|]. split; [exact (in_py_range _ _ _ _ _ Er Hoffin)|].
    split; [exact Hfit|]. split; [lia|]. split; [reflexivity|].
    exact Ep.
Qed.

(** ** First-name / surname pairing *)

Section Pairing.

Variable py_upper : pystr -> pystr.
Variable firstnames : pystr -> bool.

Lemma infer_pairs_cons2 t nxt rest :
  infer_pairs py_upper firstnames (t :: nxt :: rest) =
  let v := py_upper (firstn 1 (Tok.value t)) ++ skipn 1 (Tok.value t) in
  if firstnames v && is_plausible_token (Tok.value nxt)
  then let '(ps, ss) := infer_pairs py_upper firstnames rest in
       ((v, Tok.value nxt, Tok.source t, Tok.offset t) :: ps, ss)
  else let '(ps, ss) := infer_pairs py_upper firstnames (nxt :: rest) in (ps, t :: ss).
Proof. reflexivity. Qed.

Lemma infer_pairs_inv : forall n tokens ps ss, (length tokens <= n)%nat ->
  infer_pairs py_upper firstnames tokens = (ps, ss) ->
  (2 * length ps + length ss = length tokens)%nat
  /\ subseq ss tokens
  /\ forall v last src off, In (v, last, src, off) ps ->
       exists pre t nxt post, tokens = pre ++ t :: nxt :: post
       /\ v = py_upper (firstn 1 (Tok.value t)) ++ skipn 1 (Tok.value t)
       /\ last = Tok.value nxt /\ src = Tok.source t /\ off = Tok.offset t
       /\ firstnames v = true /\ is_plausible_token last = true.
Proof.
  induction n as [|n IH]; intros tokens ps ss Hl H.
  - destruct tokens; [|simpl in Hl; lia].
    cbn in H. injection H as <- <-. split; [reflexivity|]. split; [constructor|].
    intros ? ? ? ? [].
  - destruct tokens as [|t rest].
    + cbn in H. injection H as <- <-. split; [reflexivity|]. split; [constructor|].
      intros ? ? ? ? [].
    + destruct rest as [|nxt rest'].
      * cbn in H. injection H as <- <-. split; [reflexivity|].
        split; [repeat constructor|]. intros ? ? ? ? [].
      * rewrite infer_pairs_cons2 in H. cbv zeta in H.
        set (v := py_upper (firstn 1 (Tok.value t)) ++ skipn 1 (Tok.value t)) in H.
        destruct (firstnames v && is_plausible_token (Tok.value nxt)) eqn:Ec.
        -- destruct (infer_pairs py_upper firstnames rest') as [ps' ss'] eqn:E.
           cbn beta iota in H. injection H as <- <-. simpl in Hl.
           destruct (IH rest' ps' ss' ltac:(lia) E) as (Hc & Hs & Hp).
           split; [simpl; lia|]. split; [do 2 constructor; exact Hs|].
           intros v0 last src off [Heq|Hin].
           ++ injection Heq as <- <- <- <-. apply andb_true_iff in Ec as [E1 E2].
              exists [], t, nxt, rest'. repeat split; auto.
           ++ destruct (Hp v0 last src off Hin) as (pre & t' & n' & post & -> & Hrest).
              exists (t :: nxt :: pre), t', n', post. split; [reflexivity|exact Hrest].
        -- destruct (infer_pairs py_upper firstnames (nxt :: rest')) as [ps' ss'] eqn:E.
           injection H as <- <-. simpl in Hl.
           destruct (IH (nxt :: rest') ps' ss' ltac:(simpl; lia) E) as (Hc & Hs & Hp).
           split; [simpl in *; lia|]. split; [constructor; exact Hs|].
           intros v0 last src off Hin.
           destruct (Hp v0 last src off Hin) as (pre & t' & n' & post & Heq & Hrest).
           exists (t :: pre), t', n', post. split; [rewrite Heq; reflexivity|exact Hrest].
Qed.

End Pairing.

(** ** X8

    [infer_pairs(tokens, firstnames)] accounts for every token exactly
    once: each pair consumes two tokens and each single one
    ([2 * len(pairs) + len(singles) = len(tokens)]), the singles are the
    unpaired tokens in their original order, and each pair is built from
    two adjacent tokens [t, nxt]: the first name is [t.value] with its
    first character upper-cased, it is in [firstnames], the surname is
    [nxt.value] and is a plausible token, and the source and offset are
    those of [t]. *)
Theorem infer_pairs_partition py_upper firstnames tokens :
  let '(ps, ss) := infer_pairs py_upper firstnames tokens in
  (2 * length ps + length ss = length tokens)%nat
  /\ subseq ss tokens
  /\ forall v last src off, In (v, last, src, off) ps ->
       exists pre t nxt post, tokens = pre ++ t :: nxt :: post
       /\ v = py_upper (firstn 1 (Tok.value t)) ++ skipn 1 (Tok.value t)
       /\ last = Tok.value nxt /\ src = Tok.source t /\ off = Tok.offset t
       /\ firstnames v = true /\ is_plausible_token last = true.
Proof.
  destruct (infer_pairs py_upper firstnames tokens) as [ps ss] eqn:E.
  exact (infer_pairs_inv py_upper firstnames (length tokens) tokens ps ss (le_n _) E).
Qed.

(** ** Team List B *)

Lemma str_eqb_refl (a : pystr) : str_eqb a a = true.
Proof. induction a as [|x a IH]; simpl; [reflexivity|]. rewrite Z.eqb_refl. exact IH. Qed.

Lemma existsb_str_eqb (k : pystr) seen : existsb (str_eqb k) seen = true <-> In k seen.
Proof.
  rewrite existsb_exists. split.
  - intros [x [Hx He]]. apply str_eqb_eq in He. subst. exact Hx.
  - intros H. exists k. split; [exact H|apply str_eqb_refl].
Qed.

Lemma subseq_refl {A} (l : list A) : subseq l l.
Proof. induction l; constructor; auto. Qed.

Lemma subseq_trans {A} (a b c : list A) : subseq a b -> subseq b c -> subseq a c.
Proof.
  intros Hab Hbc. revert a Hab.
  induction Hbc as [|x l1 l2 H IH|x l1 l2 H IH]; intros a Hab.
  - exact Hab.
  - inversion Hab; subst.
    + constructor. apply IH. assumption.
    + constructor. apply IH. assumption.
  - constructor. apply IH. exact Hab.
Qed.

Lemma subseq_filter {A} (f : A -> bool) l : subseq (filter f l) l.
Proof.
  induction l as [|x l IH]; simpl; [constructor|].
  destruct (f x); constructor; exact IH.
Qed.

Lemma subseq_in {A} (a b : list A) x : subseq a b -> In x a -> In x b.
Proof.
  induction 1; simpl; [auto| |]; intros Hx.
  - destruct Hx; auto.
  - right; auto.
Qed.

Section TeamsB.

Variables py_upper py_lower : pystr -> pystr.

Lemma teamsB_loop_spec : forall cand seen,
  let out := teamsB_loop py_upper py_lower seen cand in
  subseq out cand
  /\ NoDup (map (fun p => py_lower (snd p)) out)
  /\ (forall p, In p out -> ~ In (py_lower (snd p)) seen)
  /\ (forall off s, In (off, s) out -> teamB_ok py_upper s)
  /\ (forall off s, In (off, s) cand -> teamB_ok py_upper s ->
        In (py_lower s) seen
        \/ exists off' s', In (off', s') out /\ py_lower s' = py_lower s).
Proof.
  induction cand as [|[off s] rest IH]; intros seen; cbn zeta.
  - split; [constructor|]. split; [constructor|].
    split; [intros ? []|]. split; [intros ? ? []|]. intros ? ? [].
  - cbn [teamsB_loop].
    destruct (existsb (str_eqb (py_lower s)) seen) eqn:Eseen.
    { destruct (IH seen) as (H1 & H2 & H3 & H4 & H5).
      split; [constructor; exact H1|]. split; [exact H2|]. split; [exact H3|].
      split; [exact H4|]. intros off0 s0 [Heq|Hin] Hok.
      - injection Heq as <- <-. left. apply existsb_str_eqb. exact Eseen.
      - exact (H5 off0 s0 Hin Hok). }
    destruct (py_len s <? 4) eqn:Elen.
    { destruct (IH seen) as (H1 & H2 & H3 & H4 & H5).
      split; [constructor; exact H1|]. split; [exact H2|]. split; [exact H3|].
      split; [exact H4|]. intros off0 s0 [Heq|Hin] Hok.
      - injection Heq as <- <-. destruct Hok as [Hl _]. apply Z.ltb_lt in Elen. lia.
      - exact (H5 off0 s0 Hin Hok). }
    destruct (existsb (fun k => py_contains k (py_upper s)) [cps "LEAGUE"; cps "DIVISION"])
      eqn:Ebad.
    { destruct (IH seen) as (H1 & H2 & H3 & H4 & H5).
      split; [constructor; exact H1|]. split; [exact H2|]. split; [exact H3|].
      split; [exact H4|]. intros off0 s0 [Heq|Hin] Hok.
      - injection Heq as <- <-. destruct Hok as (_ & HL & HD).
        simpl in Ebad. rewrite HL, HD in Ebad. discriminate.
      - exact (H5 off0 s0 Hin Hok). }
    destruct (IH (py_lower s :: seen)) as (H1 & H2 & H3 & H4 & H5).
    assert (Hns : ~ In (py_lower s) seen).
    { intros H. apply existsb_str_eqb in H. congruence. }
    split; [constructor; exact H1|].
    split; [simpl; constructor; [|exact H2]|].
    { intros Hin. apply in_map_iff in Hin as [p [Hp Hin]].
      apply (H3 p Hin). left. symmetry. exact Hp. }
    split.
    { intros p [<-|Hin]; [exact Hns|]. intros Hs. apply (H3 p Hin). right. exact Hs. }
    split.
    { intros off0 s0 [Heq|Hin]; [|exact (H4 off0 s0 Hin)].
      injection Heq as <- <-. apply Z.ltb_ge in Elen. simpl in Ebad.
      apply orb_false_iff in Ebad as [HL Ebad]. apply orb_false_iff in Ebad as [HD _].
      split; [lia|split; assumption]. }
    intros off0 s0 [Heq|Hin] Hok.
    + injection Heq as <- <-. right. exists off, s. split; [left; reflexivity|reflexivity].
    + destruct (H5 off0 s0 Hin Hok) as [[Hk|Hk]|(off' & s' & Hin' & Hk)].
      * right. exists off, s. split; [left; reflexivity|exact Hk].
      * left. exact Hk.
      * right. exists off', s'. split; [right; exact Hin'|exact Hk].
Qed.

End TeamsB.

(** ** X9

    Team List B, as [main] builds it from the Pascal strings [pas]: it
    keeps entries of [pas] in their order, with offsets in
    [1200 .. 3000], names of at least 4 characters whose upper-case form
    contains neither "LEAGUE" nor "DIVISION", and pairwise different
    lower-case keys; and every entry of [pas] in that window that passes
    these filters has its lower-case key represented in the result. *)
Theorem teamsB_spec py_upper py_lower pas :
  let out := teamsB py_upper py_lower pas in
  subseq out pas
  /\ NoDup (map (fun p => py_lower (snd p)) out)
  /\ (forall off s, In (off, s) out ->
        1200 <= off <= 3000 /\ 4 <= py_len s
        /\ py_contains (cps "LEAGUE") (py_upper s) = false
        /\ py_contains (cps "DIVISION") (py_upper s) = false)
  /\ (forall off s, In (off, s) pas -> 1200 <= off <= 3000 -> 4 <= py_len s ->
        py_contains (cps "LEAGUE") (py_upper s) = false ->
        py_contains (cps "DIVISION") (py_upper s) = false ->
        exists off' s', In (off', s') out /\ py_lower s' = py_lower s).
Proof.
  unfold teamsB. cbn zeta.
  set (f := fun p : Z * pystr => let '(off, _) := p in (1200 <=? off) && (off <=? 3000)).
  destruct (teamsB_loop_spec py_upper py_lower (filter f pas) []) as (H1 & H2 & H3 & H4 & H5).
  split; [exact (subseq_trans _ _ _ H1 (subseq_filter f pas))|].
  split; [exact H2|].
  split.
  - intros off s Hin. destruct (H4 off s Hin) as (Ha & Hb & Hc).
    apply (subseq_in _ _ _ H1), filter_In in Hin as [_ Hf].
    simpl in Hf. apply andb_true_iff in Hf as [Hf1 Hf2].
    apply Z.leb_le in Hf1, Hf2. auto.
  - intros off s Hin Hw Hl HL HD.
    assert (Hin' : In (off, s) (filter f pas)).
    { apply filter_In. split; [exact Hin|]. simpl.
      apply andb_true_iff; split; apply Z.leb_le; lia. }
    destruct (H5 off s Hin' (conj Hl (conj HL HD))) as [[]|H]. exact H.
Qed.

(** ** Raw team attributes *)

Lemma byte_at_range data i : bytes_ok data -> 0 <= byte_at data i <= 255.
Proof.
  unfold bytes_ok, byte_at; intros H.
  destruct (Nat.lt_ge_cases (Z.to_nat i) (length data)) as [Hl|Hl].
  - rewrite Forall_forall in H. apply H, nth_In, Hl.
  - rewrite nth_overflow by exact Hl. lia.
Qed.

Lemma nth_error_attr_rows data teams : forall idx i,
  nth_error (attr_rows data idx teams) i
  = option_map (attr_row data (idx + Z.of_nat i)) (nth_error teams i).
Proof.
  induction teams as [|name teams IH]; intros idx [|i]; simpl; try reflexivity.
  - rewrite Z.add_0_r. reflexivity.
  - rewrite IH. f_equal. f_equal. lia.
Qed.

Lemma length_attr_rows data teams : forall idx, length (attr_rows data idx teams) = length teams.
Proof. induction teams as [|name teams IH]; intros idx; simpl; [reflexivity|]. rewrite IH. reflexivity. Qed.

Lemma byte_if_none data i : byte_if data i = None <-> py_len data <= i.
Proof.
  unfold byte_if. destruct (Z.ltb_spec i (py_len data)); split; intros Hx; try discriminate; try reflexivity; lia.
Qed.

Lemma byte_if_some data i b : byte_if data i = Some b -> b = byte_at data i /\ i < py_len data.
Proof.
  unfold byte_if. destruct (Z.ltb_spec i (py_len data)); [|discriminate].
  intros E; injection E as <-. auto.
Qed.

(** ** X10

    [extract_team_attributes_raw(data, teams)] returns one row per team
    of [teams[:64]], row [i] carrying index [i] and name [teams[i]].  In
    row [i] each byte field is [None] exactly when its offset
    ([0x0C20], [0x0C80], [0x0CC0] or [0x0CE0] plus [i]) is past the end of
    [data], and [u16_le] is [None] exactly when its two bytes at
    [0x0C60 + 2i] do not both fit; a present [u16_le] lies in
    [0 .. 65535] and a present byte in [0 .. 255].  [b4_ascii] is either
    empty or the single printable character [b4_u8]. *)
Theorem extract_team_attributes_raw_spec data teams :
  let rows := extract_team_attributes_raw data teams in
  length rows = Nat.min 64 (length teams)
  /\ forall i r, nth_error rows i = Some r ->
     (i < 64)%nat /\ Attr.team_index r = Z.of_nat i
     /\ nth_error teams i = Some (Attr.team_name r)
     /\ (Attr.b1_u8 r = None <-> py_len data <= ATTR_B1_OFFSET + Z.of_nat i)
     /\ (Attr.b2_u8 r = None <-> py_len data <= ATTR_B2_OFFSET + Z.of_nat i)
     /\ (Attr.b3_u8 r = None <-> py_len data <= ATTR_B3_OFFSET + Z.of_nat i)
     /\ (Attr.b4_u8 r = None <-> py_len data <= ATTR_B4_OFFSET + Z.of_nat i)
     /\ (Attr.u16_le r = None <-> py_len data < ATTR_U16_OFFSET + 2 * Z.of_nat i + 2)
     /\ (bytes_ok data ->
         (forall v, Attr.u16_le r = Some v -> 0 <= v <= 65535)
         /\ (forall b, In (Some b) [Attr.b1_u8 r; Attr.b2_u8 r; Attr.b3_u8 r; Attr.b4_u8 r] ->
               0 <= b <= 255))
     /\ (Attr.b4_ascii r = []
         \/ exists b, Attr.b4_u8 r = Some b /\ Attr.b4_ascii r = [b] /\ 32 <= b <= 126).
Proof.
  unfold extract_team_attributes_raw. cbn zeta. split.
  - rewrite length_attr_rows, length_firstn. reflexivity.
  - intros i r H. rewrite nth_error_attr_rows in H.
    destruct (nth_error (firstn (Z.to_nat TEAM_COUNT) teams) i) as [name|] eqn:En;
      [|discriminate].
    injection H as <-.
    assert (Hi : (i < 64)%nat).
    { assert (Hn : nth_error (firstn (Z.to_nat TEAM_COUNT) teams) i <> None) by congruence.
      apply nth_error_Some in Hn. rewrite length_firstn in Hn.
      change (Z.to_nat TEAM_COUNT) with 64%nat in Hn.
      pose proof (Nat.le_min_l 64 (length teams)). lia. }
    rewrite nth_error_firstn in En.
    replace (i <? Z.to_nat TEAM_COUNT)%nat with true in En
      by (symmetry; apply Nat.ltb_lt; unfold TEAM_COUNT; simpl; lia).
    unfold attr_row. cbn [Attr.team_index Attr.team_name Attr.b1_u8 Attr.b2_u8 Attr.b3_u8
                          Attr.b4_u8 Attr.u16_le Attr.b4_ascii].
    try rewrite Z.add_0_l.
    split; [exact Hi|]. split; [reflexivity|]. split; [exact En|].
    split; [apply byte_if_none|]. split; [apply byte_if_none|].
    split; [apply byte_if_none|]. split; [apply byte_if_none|].
    split.
    { destruct (Z.leb_spec (ATTR_U16_OFFSET + Z.of_nat i * 2 + 2) (py_len data));
        split; intros Hx; try discriminate; try reflexivity; lia. }
    split.
    { intros Hb. split.
      - intros v Hv.
        destruct (ATTR_U16_OFFSET + Z.of_nat i * 2 + 2 <=? py_len data); [|discriminate].
        assert (Hv' : v = u16_le data (ATTR_U16_OFFSET + Z.of_nat i * 2)) by congruence.
        rewrite Hv'. unfold u16_le.
        pose proof (byte_at_range data (ATTR_U16_OFFSET + Z.of_nat i * 2) Hb).
        pose proof (byte_at_range data (ATTR_U16_OFFSET + Z.of_nat i * 2 + 1) Hb). lia.
      - intros b Hin.
        assert (Hx : exists j, byte_if data j = Some b).
        { simpl in Hin. destruct Hin as [H|[H|[H|[H|[]]]]]; eexists; exact H. }
        destruct Hx as [j Hj]. apply byte_if_some in Hj as [-> _].
        apply byte_at_range, Hb. }
    destruct (byte_if data (ATTR_B4_OFFSET + Z.of_nat i)) as [b|] eqn:E4; [|left; reflexivity].
    destruct ((32 <=? b) && (b <=? 126)) eqn:Ep; [|left; reflexivity].
    right. exists b. apply andb_true_iff in Ep as [P1 P2]. apply Z.leb_le in P1, P2.
    split; [reflexivity|]. split; [reflexivity|]. lia.
Qed.

(** ** X11

    The attribute areas overlap, so [extract_team_attributes_raw]'s fields
    are not independent: for team [16 <= i <= 47] the [u16_le] value is
    the little-endian pair of the [b2_u8] bytes of teams [2i - 32] and
    [2i - 31] (and [None] when the second is), for [48 <= i <= 63] it is
    that of the [b3_u8] bytes of teams [2i - 96] and [2i - 95], and for
    [0 <= j <= 31] the [b3_u8] of team [j + 32] is the [b4_u8] of team
    [j]. *)
Theorem attr_row_overlaps data :
  (forall i n n1 n2, 16 <= i <= 47 ->
     Attr.u16_le (attr_row data i n)
     = match Attr.b2_u8 (attr_row data (2 * i - 32) n1),
             Attr.b2_u8 (attr_row data (2 * i - 31) n2) with
       | Some lo, Some hi => Some (lo + 256 * hi)
       | _, _ => None
       end)
  /\ (forall i n n1 n2, 48 <= i <= 63 ->
     Attr.u16_le (attr_row data i n)
     = match Attr.b3_u8 (attr_row data (2 * i - 96) n1),
             Attr.b3_u8 (attr_row data (2 * i - 95) n2) with
       | Some lo, Some hi => Some (lo + 256 * hi)
       | _, _ => None
       end)
  /\ (forall j n n', 0 <= j <= 31 ->
     Attr.b3_u8 (attr_row data (j + 32) n) = Attr.b4_u8 (attr_row data j n')).
Proof.
  unfold attr_row, byte_if, u16_le, ATTR_U16_OFFSET, ATTR_B2_OFFSET, ATTR_B3_OFFSET,
    ATTR_B4_OFFSET.
  cbn [Attr.u16_le Attr.b2_u8 Attr.b3_u8 Attr.b4_u8].
  split; [|split].
  - intros i n n1 n2 Hi.
    replace (3200 + (2 * i - 32)) with (3168 + i * 2) by lia.
    replace (3200 + (2 * i - 31)) with (3168 + i * 2 + 1) by lia.
    destruct (Z.leb_spec (3168 + i * 2 + 2) (py_len data));
      destruct (Z.ltb_spec (3168 + i * 2) (py_len data));
      destruct (Z.ltb_spec (3168 + i * 2 + 1) (py_len data));
      reflexivity || lia.
  - intros i n n1 n2 Hi.
    replace (3264 + (2 * i - 96)) with (3168 + i * 2) by lia.
    replace (3264 + (2 * i - 95)) with (3168 + i * 2 + 1) by lia.
    destruct (Z.leb_spec (3168 + i * 2 + 2) (py_len data));
      destruct (Z.ltb_spec (3168 + i * 2) (py_len data));
      destruct (Z.ltb_spec (3168 + i * 2 + 1) (py_len data));
      reflexivity || lia.
  - intros j n n' Hj. replace (3264 + (j + 32)) with (3296 + j) by lia. reflexivity.
Qed.

(** ** Pascal strings found by the unaligned scan *)

Lemma forall_allowed_strip (b : pybytes) :
  is_printable_name_bytes b = true ->
  Forall (fun c => allowed_char c = true) (py_strip (decode_cp437 b)).
Proof.
  intros Hp. unfold is_printable_name_bytes in Hp. rewrite forallb_forall in Hp.
  assert (Hd : decode_cp437 b = b).
  { unfold decode_cp437. rewrite <- (map_id b) at 2. apply map_ext_in.
    intros c Hc. specialize (Hp c Hc). unfold cp437.
    replace (c <? 128) with true; [reflexivity|].
    symmetry. apply Z.ltb_lt. unfold allowed_char in Hp.
    repeat (apply orb_true_iff in Hp as [Hp|Hp]);
      try (apply andb_true_iff in Hp as [_ Hp]; apply Z.leb_le in Hp; lia);
      apply Z.eqb_eq in Hp; lia. }
  rewrite Hd. destruct (py_strip_spec b) as (pre & post & Hb & _).
  apply Forall_forall. intros c Hc. apply Hp. rewrite Hb.
  apply in_app_iff. right. apply in_app_iff. left. exact Hc.
Qed.

Section PascalSound.

Variable isalpha : Z -> bool.
Variables min_len max_len : Z.

Lemma pascal_loop_sound data : bytes_ok data ->
  forall fuel i, 0 <= i ->
  let out := pascal_loop isalpha data min_len max_len i fuel in
  (forall q s, In (q, s) out -> pascal_entry_ok isalpha min_len max_len data q s)
  /\ Sorted (pascal_gap data) out.
Proof.
  intros Hok. induction fuel as [|f IH]; intros i Hi; cbn zeta; cbn [pascal_loop].
  - split; [intros ? ? []|constructor].
  - destruct (Z.ltb_spec i (py_len data - 2)) as [Hlt|Hge];
      [|split; [intros ? ? []|constructor]].
    pose proof (byte_at_nonneg data i Hok) as HL.
    unfold pascal_step.
    destruct ((min_len <=? byte_at data i) && (byte_at data i <=? max_len)
              && (i + 1 + byte_at data i <=? py_len data)) eqn:Ec.
    2:{ exact (IH (i + 1) ltac:(lia)). }
    apply andb_true_iff in Ec as [Ec E3]. apply andb_true_iff in Ec as [E1 E2].
    apply Z.leb_le in E1, E2, E3.
    destruct (is_printable_name_bytes (py_slice data (i + 1) (i + 1 + byte_at data i)))
      eqn:Ep.
    2:{ exact (IH (i + 1) ltac:(lia)). }
    destruct (IH (i + 1 + byte_at data i) ltac:(lia)) as [H1 H2].
    destruct (existsb isalpha (py_strip (decode_cp437
                (py_slice data (i + 1) (i + 1 + byte_at data i))))) eqn:Ea.
    2:{ split; [exact H1|exact H2]. }
    split.
    + intros q s [Heq|Hin]; [|exact (H1 q s Hin)].
      injection Heq as <- <-. unfold pascal_entry_ok. cbv zeta.
      split; [lia|]. split; [lia|]. split; [exact E3|]. split; [exact Ep|].
      split; [reflexivity|]. split; [exact Ea|]. apply forall_allowed_strip, Ep.
    + constructor; [exact H2|].
      destruct (pascal_loop isalpha data min_len max_len (i + 1 + byte_at data i) f)
        as [|[q s] rest] eqn:Eout; [constructor|].
      constructor. unfold pascal_gap. simpl.
      apply (pascal_loop_offsets isalpha data min_len max_len Hok f _ q s).
      rewrite Eout. left. reflexivity.
Qed.

End PascalSound.

(** ** X12

    Every string [(off, s)] that [extract_pascal_strings(data, min_len,
    max_len)] yields is read at [0 <= off < len(data) - 2] from a length
    byte [L = data[off]] with [min_len <= L <= max_len] whose [L] bytes fit
    in [data] and are all in [ALLOWED_CHARS]; [s] is their stripped
    decoding, contains a letter, and consists of [ALLOWED_CHARS] only.
    Successive strings do not overlap: the next one starts at or after
    [off + 1 + L]. *)
Theorem extract_pascal_strings_sound isalpha data min_len max_len :
  bytes_ok data ->
  let out := extract_pascal_strings isalpha data min_len max_len in
  (forall off s, In (off, s) out ->
     let L := byte_at data off in
     0 <= off < py_len data - 2
     /\ min_len <= L <= max_len /\ off + 1 + L <= py_len data
     /\ is_printable_name_bytes (py_slice data (off + 1) (off + 1 + L)) = true
     /\ s = py_strip (decode_cp437 (py_slice data (off + 1) (off + 1 + L)))
     /\ existsb isalpha s = true
     /\ Forall (fun c => allowed_char c = true) s)
  /\ Sorted (fun a b => fst a + 1 + byte_at data (fst a) <= fst b) out.
Proof.
  intros Hok. exact (pascal_loop_sound isalpha min_len max_len data Hok (length data) 0
                       ltac:(lia)).
Qed.

(** ** Slot tables found by the aligned scan *)

Section SlotSound.

Variable isalpha : Z -> bool.

Lemma read_slot16_some_fits data off s :
  read_slot16 isalpha data off = Some s -> off + 16 <= py_len data.
Proof.
  unfold read_slot16. destruct (Z.ltb_spec (py_len data) (off + 16)); [discriminate|].
  intros _. lia.
Qed.

Lemma slot_run_spec data : forall fuel o,
  let T := slot_run isalpha data o fuel in
  (forall k off s, nth_error T k = Some (off, s) ->
     off = o + 16 * Z.of_nat k /\ read_slot16 isalpha data off = Some s)
  /\ ((length T < fuel)%nat -> read_slot16 isalpha data (o + 16 * Z.of_nat (length T)) = None)
  /\ (T = [] \/ o + 16 * Z.of_nat (length T) <= py_len data).
Proof.
  induction fuel as [|f IH]; intros o; cbn zeta; cbn [slot_run].
  - split; [intros [|k] ? ? H; discriminate|]. split; [simpl; lia|left; reflexivity].
  - destruct (read_slot16 isalpha data o) as [s|] eqn:Er.
    + destruct (IH (o + 16)) as (H1 & H2 & H3).
      split; [|split].
      * intros [|k] off s0 H; simpl in H.
        -- injection H as <- <-. split; [lia|exact Er].
        -- destruct (H1 k off s0 H) as [-> Hs]. split; [lia|exact Hs].
      * intros Hl. simpl in Hl. simpl length.
        replace (o + 16 * Z.of_nat (S (length (slot_run isalpha data (o + 16) f))))
          with (o + 16 + 16 * Z.of_nat (length (slot_run isalpha data (o + 16) f))) by lia.
        apply H2. lia.
      * right. pose proof (read_slot16_some_fits data o s Er). simpl length.
        destruct H3 as [He|Hb].
        -- rewrite He. simpl. lia.
        -- lia.
    + split; [intros [|k] ? ? H; discriminate|].
      split; [intros _; simpl; rewrite Z.add_0_r; exact Er|left; reflexivity].
Qed.

Lemma find_tables_loop_sound data : forall fuel i, 0 <= i ->
  let tabs := find_tables_loop isalpha data i fuel in
  (forall T, In T tabs -> slot_table_ok isalpha data i T)
  /\ Sorted slot_tables_apart tabs.
Proof.
  induction fuel as [|f IH]; intros i Hi; cbn zeta; cbn [find_tables_loop].
  - split; [intros ? []|constructor].
  - destruct (Z.ltb_spec i (py_len data - 16)) as [Hlt|Hge];
      [|split; [intros ? []|constructor]].
    destruct (Z.leb_spec 8 (py_len (slot_run isalpha data i (length data)))) as [H8|H8].
    + set (T := slot_run isalpha data i (length data)) in *.
      destruct (slot_run_spec data (length data) i) as (S1 & S2 & S3). fold T in S1, S2, S3.
      assert (HT : (8 <= length T)%nat) by (unfold py_len in H8; lia).
      assert (Hb : i + 16 * Z.of_nat (length T) <= py_len data).
      { destruct S3 as [He|Hb]; [rewrite He in HT; simpl in HT; lia|exact Hb]. }
      destruct (IH (i + 16 * py_len T) ltac:(unfold py_len; lia)) as [H1 H2].
      assert (HokT : slot_table_ok isalpha data i T).
      { exists i. split; [lia|]. split; [exact Hlt|]. split; [exact HT|].
        split; [exact S1|]. apply S2. unfold py_len in Hb. lia. }
      split.
      * intros T' [<-|Hin]; [exact HokT|].
        destruct (H1 T' Hin) as (o & Ho & Hrest). exists o. split; [|exact Hrest].
        unfold py_len in Ho. lia.
      * constructor; [exact H2|].
        destruct (find_tables_loop isalpha data (i + 16 * py_len T) f) as [|T2 rest] eqn:Et;
          [constructor|].
        constructor. intros o1 s1 o2 s2 Hh1 Hh2.
        destruct T as [|[o1' s1'] T1]; [discriminate|]. simpl in Hh1.
        injection Hh1 as <- <-.
        destruct (S1 0%nat o1' s1' eq_refl) as [Ho1 _].
        destruct (H1 T2 (or_introl eq_refl)) as (o & Ho & _ & HT2 & Hn & _).
        destruct T2 as [|[o2' s2'] T2']; [discriminate|]. simpl in Hh2.
        injection Hh2 as <- <-.
        destruct (Hn 0%nat o2' s2' eq_refl) as [Ho2 _].
        unfold py_len in Ho. lia.
    + destruct (IH (i + 1) ltac:(lia)) as [H1 H2]. split; [|exact H2].
      intros T Hin. destruct (H1 T Hin) as (o & Ho & Hrest). exists o. split; [lia|exact Hrest].
Qed.

End SlotSound.

(** ** X13

    Every table [find_slot16_tables(data)] returns has at least 8 slots, at
    offsets [o, o + 16, o + 32, ...] with [0 <= o < len(data) - 16], each
    slot reading back as its string with [read_slot16]; the slot right
    after the table does not read ([read_slot16] gives [None]).  The
    tables come in increasing order and do not overlap: each starts at or
    after the end [o + 16 * len(table)] of the previous one. *)
Theorem find_slot16_tables_sound isalpha data :
  let tabs := find_slot16_tables isalpha data in
  (forall T, In T tabs ->
     exists o, 0 <= o /\ o < py_len data - 16 /\ (8 <= length T)%nat
     /\ (forall k off s, nth_error T k = Some (off, s) ->
           off = o + 16 * Z.of_nat k /\ read_slot16 isalpha data off = Some s)
     /\ read_slot16 isalpha data (o + 16 * Z.of_nat (length T)) = None)
  /\ Sorted (fun T1 T2 => forall o1 s1 o2 s2,
               hd_error T1 = Some (o1, s1) -> hd_error T2 = Some (o2, s2) ->
               o1 + 16 * Z.of_nat (length T1) <= o2) tabs.
Proof.
  exact (find_tables_loop_sound isalpha data (length data) 0 (Z.le_refl 0)).
Qed.

(** ** Name tokens cut from blob runs *)

Lemma run_char_not_space c : run_char c = true -> py_isspace c = false.
Proof.
  intros H. assert (Hc : 39 <= c <= 122).
  { unfold run_char, ascii_isalpha, ascii_isupper, ascii_islower in H.
    repeat (apply orb_true_iff in H as [H|H]);
      try (apply andb_true_iff in H as [H1 H2]; apply Z.leb_le in H1, H2; lia);
      apply Z.eqb_eq in H; lia. }
  destruct (py_isspace c) eqn:E; [|reflexivity]. exfalso. unfold py_isspace in E.
  repeat (apply orb_true_iff in E as [E|E]);
    try (apply andb_true_iff in E as [E1 E2]; apply Z.leb_le in E1, E2; lia);
    apply Z.eqb_eq in E; lia.
Qed.

Lemma py_strip_no_space s : Forall (fun c => py_isspace c = false) s -> py_strip s = s.
Proof.
  assert (Hl : forall s, Forall (fun c => py_isspace c = false) s -> lstrip s = s).
  { intros [|c r] H; [reflexivity|]. simpl. inversion H; subst. rewrite H2. reflexivity. }
  intros H. unfold py_strip. rewrite (Hl s H), Hl; [apply rev_involutive|].
  apply Forall_rev, H.
Qed.

Lemma run_len_le s : (run_len s <= length s)%nat.
Proof. induction s as [|c s IH]; simpl; [lia|]. destruct (run_char c); simpl; lia. Qed.

Lemma run_len_firstn s : Forall (fun c => run_char c = true) (firstn (run_len s) s).
Proof.
  induction s as [|c s IH]; simpl; [constructor|].
  destruct (run_char c) eqn:E; simpl; [constructor; auto|constructor].
Qed.

Lemma run_len_after s c : hd_error (skipn (run_len s) s) = Some c -> run_char c = false.
Proof.
  induction s as [|d s IH]; simpl; [discriminate|].
  destruct (run_char d) eqn:E; simpl; [exact IH|]. intros H; injection H as <-. exact E.
Qed.

Section BlobRuns.

Variable minrun : Z.

Lemma name_runs_sound text : forall fuel P s pos,
  text = P ++ s -> pos = py_len P -> runs_inv minrun P s ->
  forall p blob, In (p, blob) (name_runs minrun s pos fuel) ->
  exists P' s', text = P' ++ blob ++ s' /\ p = py_len P'
  /\ Forall (fun c => run_char c = true) blob /\ minrun <= py_len blob
  /\ (forall c, hd_error s' = Some c -> run_char c = false)
  /\ (forall c, hd_error (rev P') = Some c -> run_char c = false).
Proof.
  induction fuel as [|f IH]; intros P s pos Ht Hpos Hinv p blob Hin; [contradiction|].
  destruct s as [|c r]; [contradiction|].
  cbn [name_runs] in Hin.
  destruct ((0 <? run_len (c :: r))%nat && (minrun <=? Z.of_nat (run_len (c :: r)))) eqn:Ek.
  - apply andb_true_iff in Ek as [Ek1 Ek2]. apply Nat.ltb_lt in Ek1. apply Z.leb_le in Ek2.
    destruct Hin as [Heq|Hin].
    + assert (Hp : pos = p) by congruence.
      assert (Hb : firstn (run_len (c :: r)) (c :: r) = blob) by congruence.
      subst p blob.
      exists P, (skipn (run_len (c :: r)) (c :: r)).
      split; [rewrite firstn_skipn; exact Ht|]. split; [exact Hpos|].
      split; [apply run_len_firstn|].
      split; [unfold py_len; rewrite length_firstn, Nat.min_l by apply run_len_le; exact Ek2|].
      split; [apply run_len_after|].
      intros d Hd. destruct (run_char d) eqn:Hr; [|reflexivity].
      destruct (Hinv d Hd Hr); lia.
    + apply (IH (P ++ firstn (run_len (c :: r)) (c :: r)) (skipn (run_len (c :: r)) (c :: r))
               _ ltac:(rewrite <- app_assoc, firstn_skipn; exact Ht)) in Hin;
        [exact Hin| |].
      * unfold py_len. rewrite length_app, length_firstn, Nat.min_l by apply run_len_le.
        unfold py_len in Hpos. lia.
      * intros d _ _. left.
        destruct (skipn (run_len (c :: r)) (c :: r)) as [|e rest] eqn:Es; [reflexivity|].
        pose proof (run_len_after (c :: r) e) as He. rewrite Es in He.
        simpl. rewrite (He eq_refl). reflexivity.
  - apply (IH (P ++ [c]) r (pos + 1) ltac:(rewrite <- app_assoc; exact Ht)) in Hin;
      [exact Hin| |].
    + unfold py_len in *. rewrite length_app. simpl. lia.
    + intros d Hd Hr. rewrite rev_app_distr in Hd. simpl in Hd. injection Hd as ->.
      right. cbn [run_len] in Ek. rewrite Hr in Ek.
      apply andb_false_iff in Ek as [Ek|Ek]; [apply Nat.ltb_ge in Ek; lia|].
      apply Z.leb_gt in Ek. exact Ek.
Qed.

End BlobRuns.

(** ** X14

    Every token of [extract_blob_tokens(text)] has source ["blob"] and is
    a plausible token, and it is a verbatim piece of a run of name
    characters ([[A-Za-z'\-]]) of [text] that has at least [minrun]
    characters, starts at the token's offset and is maximal: the
    characters just before and just after it, where they exist, are not
    name characters. *)
Theorem extract_blob_tokens_sound minrun text t :
  In t (extract_blob_tokens minrun text) ->
  Tok.source t = "blob"%string /\ is_plausible_token (Tok.value t) = true
  /\ exists pre blob post, text = pre ++ blob ++ post /\ Tok.offset t = py_len pre
     /\ minrun <= py_len blob /\ Forall (fun c => run_char c = true) blob
     /\ (forall c, hd_error post = Some c -> run_char c = false)
     /\ (forall c, hd_error (rev pre) = Some c -> run_char c = false)
     /\ exists a b, blob = a ++ Tok.value t ++ b.
Proof.
  unfold extract_blob_tokens. intros Hin.
  apply in_flat_map in Hin as [[base blob] [Hrun Hin]].
  apply in_flat_map in Hin as [t0 [Hpiece Hin]].
  destruct (name_runs_sound minrun text (length text) [] text 0 eq_refl eq_refl
              ltac:(intros c Hc; discriminate) base blob Hrun)
    as (P & S & Ht & Hp & Hf & Hm & Hpost & Hpre).
  destruct (split_concatenated_names_pieces ascii_isupper ascii_islower blob) as [Hc _].
  apply in_split in Hpiece as (l1 & l2 & Hl).
  assert (Hb : blob = concat l1 ++ t0 ++ concat l2).
  { rewrite <- Hc, Hl, concat_app. reflexivity. }
  assert (Hs : py_strip t0 = t0).
  { apply py_strip_no_space. rewrite Hb in Hf.
    apply Forall_app in Hf as [_ Hf]. apply Forall_app in Hf as [Hf _].
    eapply Forall_impl; [|exact Hf]. intros c. apply run_char_not_space. }
  rewrite Hs in Hin.
  destruct (is_plausible_token t0) eqn:Ep; [|contradiction].
  destruct Hin as [<-|[]]. cbn [Tok.source Tok.value Tok.offset].
  split; [reflexivity|]. split; [exact Ep|].
  exists P, blob, S. repeat split; auto.
  exists (concat l1), (concat l2). exact Hb.
Qed.

(** ** De-duplication in [main] *)

Section KeepFirst.

Context {A K : Type}.
Variable keq : K -> K -> bool.
Variable key : A -> K.
Hypothesis keq_spec : forall a b, keq a b = true <-> a = b.

Lemma existsb_keq k seen : existsb (keq k) seen = true <-> In k seen.
Proof.
  rewrite existsb_exists. split.
  - intros [x [Hx He]]. apply keq_spec in He. subst. exact Hx.
  - intros H. exists k. split; [exact H|apply keq_spec; reflexivity].
Qed.

Lemma keep_first_spec : forall l seen,
  let out := keep_first keq key seen l in
  subseq out l
  /\ NoDup (map key out)
  /\ (forall y, In y out -> ~ In (key y) seen)
  /\ (forall x, In x l -> In (key x) seen \/ exists y, In y out /\ key y = key x).
Proof.
  induction l as [|x r IH]; intros seen; cbn zeta; cbn [keep_first].
  - split; [constructor|]. split; [constructor|]. split; [intros _ []|intros _ []].
  - destruct (existsb (keq (key x)) seen) eqn:E.
    + destruct (IH seen) as (H1 & H2 & H3 & H4).
      split; [constructor; exact H1|]. split; [exact H2|]. split; [exact H3|].
      intros z [<-|Hz]; [left; apply existsb_keq, E|exact (H4 z Hz)].
    + destruct (IH (key x :: seen)) as (H1 & H2 & H3 & H4).
      assert (Hn : ~ In (key x) seen) by (intros H; apply existsb_keq in H; congruence).
      split; [constructor; exact H1|].
      split; [simpl; constructor; [|exact H2]|].
      { intros Hin. apply in_map_iff in Hin as [y [Hy Hin]].
        apply (H3 y Hin). left. symmetry. exact Hy. }
      split.
      { intros y [<-|Hy]; [exact Hn|]. intros Hs. apply (H3 y Hy). right. exact Hs. }
      intros z [<-|Hz].
      * right. exists x. split; [left; reflexivity|reflexivity].
      * destruct (H4 z Hz) as [[Hk|Hk]|(y & Hy & Hk)].
        -- right. exists x. split; [left; reflexivity|exact Hk].
        -- left. exact Hk.
        -- right. exists y. split; [right; exact Hy|exact Hk].
Qed.

End KeepFirst.

Lemma str_eqb_iff a b : str_eqb a b = true <-> a = b.
Proof. split; [apply str_eqb_eq|intros ->; apply str_eqb_refl]. Qed.

Lemma pair_key_eqb_iff a b : pair_key_eqb a b = true <-> a = b.
Proof.
  destruct a as [a1 a2], b as [b1 b2]. unfold pair_key_eqb. simpl.
  rewrite andb_true_iff, !str_eqb_iff. split; [intros [-> ->]; reflexivity|].
  intros H; injection H as -> ->. auto.
Qed.

(** ** X15

    The de-duplication loops of [main]: [pairs_unique] keeps pairs of
    [pairs] in their order with pairwise different [(first, last)] keys,
    and every pair of [pairs] has its key among them; likewise
    [singles_unique] keeps tokens of [singles] in order with pairwise
    different values, and every value of [singles] is represented. *)
Theorem main_dedup_spec pairs singles :
  (subseq (pairs_unique pairs) pairs
   /\ NoDup (map pair_key (pairs_unique pairs))
   /\ forall p, In p pairs -> exists q, In q (pairs_unique pairs) /\ pair_key q = pair_key p)
  /\ (subseq (singles_unique singles) singles
   /\ NoDup (map Tok.value (singles_unique singles))
   /\ forall t, In t singles ->
        exists u, In u (singles_unique singles) /\ Tok.value u = Tok.value t).
Proof.
  split.
  - destruct (keep_first_spec pair_key_eqb pair_key pair_key_eqb_iff pairs [])
      as (H1 & H2 & _ & H4).
    split; [exact H1|]. split; [exact H2|].
    intros p Hp. destruct (H4 p Hp) as [[]|H]. exact H.
  - destruct (keep_first_spec str_eqb Tok.value str_eqb_iff singles [])
      as (H1 & H2 & _ & H4).
    split; [exact H1|]. split; [exact H2|].
    intros t Ht. destruct (H4 t Ht) as [[]|H]. exact H.
Qed.

(** ** Witnesses of the properties with preconditions *)

Lemma solve_u16_scaled_tables_candidates_witness :
  exists out,
    solve_u16_scaled_tables [10; 0; 20; 0; 30; 0; 7; 0] 3 [(0, 10); (1, 20)] [1; 2] 0 None 2
    = Some out
    /\ out <> [] /\ Forall (fun c => In (scale c) [1; 2]) out.
Proof.
  eexists. split; [exact eq_refl|]. split; [vm_compute; discriminate|].
  apply Forall_forall. intros c Hc.
  pose proof (fun H => solve_u16_scaled_tables_candidates [10; 0; 20; 0; 30; 0; 7; 0] 3
                [(0, 10); (1, 20)] [1; 2] 0 None 2 _ c H Hc) as Hx.
  destruct (Hx ltac:(vm_compute; reflexivity)) as (_ & _ & Hk & _).
  exact Hk.
Defined.

Lemma solve_u32_tables_candidates_witness :
  exists out,
    solve_u32_tables [232; 3; 0; 0; 208; 7; 0; 0; 0; 0; 0; 0] 2 [(0, 1000); (1, 2000)] 0 None 1
    = Some out
    /\ out <> [] /\ Forall (fun c => 1000 <= cmax c /\ scale c = 1) out.
Proof.
  eexists. split; [exact eq_refl|]. split; [vm_compute; discriminate|].
  apply Forall_forall. intros c Hc.
  pose proof (fun H => solve_u32_tables_candidates [232; 3; 0; 0; 208; 7; 0; 0; 0; 0; 0; 0] 2
                [(0, 1000); (1, 2000)] 0 None 1 _ c H Hc) as Hx.
  destruct (Hx ltac:(vm_compute; reflexivity)) as (_ & Hs & _ & _ & Hm & _).
  split; [exact Hm|exact Hs].
Defined.

Lemma extract_slot16_tokens_spec_witness :
  exists toks, extract_slot16_tokens ([4] ++ cps "Team" ++ repeat 0 11) 0 16 = Some toks.
Proof.
  destruct (proj2 (extract_slot16_tokens_spec ([4] ++ cps "Team" ++ repeat 0 11) 0 16)
              ltac:(lia) ltac:(lia)) as [toks [H _]].
  exists toks. exact H.
Defined.

Lemma attr_row_overlaps_witness :
  Attr.b3_u8 (attr_row (repeat 65 3400) (1 + 32) (cps "Aberdeen"))
  = Attr.b4_u8 (attr_row (repeat 65 3400) 1 (cps "Celtic")).
Proof.
  exact (proj2 (proj2 (attr_row_overlaps (repeat 65 3400))) 1 (cps "Aberdeen") (cps "Celtic")
           ltac:(lia)).
Defined.

Lemma extract_pascal_strings_sound_witness :
  Sorted (fun a b => fst a + 1 + byte_at ([8] ++ cps "AberdeenXYZ" ++ [0; 0]) (fst a) <= fst b)
    (extract_pascal_strings ascii_isalpha ([8] ++ cps "AberdeenXYZ" ++ [0; 0]) 3 24).
Proof.
  exact (proj2 (extract_pascal_strings_sound ascii_isalpha ([8] ++ cps "AberdeenXYZ" ++ [0; 0])
                  3 24 ltac:(unfold bytes_ok; simpl;
                             repeat (apply Forall_cons; [lia|]); apply Forall_nil))).
Defined.

Lemma extract_blob_tokens_sound_witness :
  is_plausible_token (cps "Diamond") = true.
Proof.
  destruct (extract_blob_tokens_sound 5 (cps "AndersonDiamond")
              (Tok.mkToken (cps "Diamond") "blob" 0)
              ltac:(vm_compute; right; left; reflexivity)) as [_ [H _]].
  exact H.
Defined.
